(** * HPEOpenPose: the OpenPose model wrapper of the demos' common library

    A shallow embedding of [demos/common/cpp/models/src/hpe_model_openpose.cpp]:
    model-shape negotiation ([prepareInputsOutputs], [changeInputSize]),
    per-image [preprocess], the pose-extraction driver ([extractPoses]) and
    [postprocess].

    Conventions.
    - C++ [int] is a [Z]: arithmetic on it is checked ([Int.add] and the
      like are undefined on overflow), conversions into it reduce modulo
      [2^32] ([Int.wrap]).  [size_t] is a [Z] reduced modulo [2^64]
      ([Size.wrap]).  Loop counters that only index vectors are [nat].
    - [float] and [double] are IEEE-754 binary32 / binary64 values, as the
      parameterised [spec_float] operations of the standard library.
    - A call either returns, throws, or leaves defined behaviour
      ([result]).
    - The header [models/hpe_model_openpose.h], the decoder
      ([findPeaks], [groupPeaksToPoses]), the image helpers and the
      OpenVINO / OpenCV libraries are outside this file's source; each is
      introduced where it is used, as an interface (a class) or as a
      definition marked "Modelled from the spec". *)

From Stdlib Require Import ZArith List Lia Bool.
From Stdlib Require Import Floats.SpecFloat.
From stdpp Require Import base list strings gmap.

Local Open Scope Z_scope.

(* ===================================================================== *)
(** * Outcomes of a call *)
(* ===================================================================== *)

(** The [std::runtime_error]s the wrapper throws, by the place that throws
    them, and the failures of the library calls it makes. *)
Inductive exn : Type :=
| OneInputExpected          (* "supports topologies only with 1 input" *)
| InputShapeExpected        (* "3-channel 4-dimensional model's input" *)
| TwoOutputsExpected        (* "supports topologies only with 2 outputs" *)
| HeatmapShapeExpected      (* "1x..xHFMxWFM dimension of model's heatmap" *)
| PafShapeExpected          (* "1x..xHFMxWFM dimension of model's output" *)
| MapsMismatch              (* "matching last two dimensions" *)
| AspectRatioMismatch       (* "image aspect ratio doesn't fit" *)
| LibraryError.             (* thrown inside an OpenVINO call *)

Inductive result (A : Type) : Type :=
| Ok (a : A)
| Throw (e : exn)
| Undefined.
Arguments Ok {A} a.
Arguments Throw {A} e.
Arguments Undefined {A}.

#[global] Instance result_ret : MRet result := fun _ a => Ok a.
#[global] Instance result_bind : MBind result := fun _ _ k r =>
  match r with
  | Ok a => k a
  | Throw e => Throw e
  | Undefined => Undefined
  end.

(** [if (c) throw e;] *)
Definition throw_if (c : bool) (e : exn) : result unit :=
  if c then Throw e else Ok tt.

Definition is_ok {A : Type} (r : result A) : Prop := exists a, r = Ok a.
Definition throws {A : Type} (r : result A) : Prop := exists e, r = Throw e.

(* ===================================================================== *)
(** * Machine numbers *)
(* ===================================================================== *)

(** 32-bit two's complement [int].  Conversions into [int] reduce modulo
    [2^32]; overflowing signed arithmetic and division by zero are
    undefined. *)
Module Int.
Definition min_signed : Z := - 2 ^ 31.
Definition max_signed : Z := 2 ^ 31 - 1.
Definition modulus : Z := 2 ^ 32.

(** The representative of [z] modulo [2^32] in [[-2^31, 2^31)]. *)
Definition wrap (z : Z) : Z := (z + 2 ^ 31) mod modulus - 2 ^ 31.

Definition in_range (z : Z) : bool := (min_signed <=? z) && (z <=? max_signed).

Definition checked (z : Z) : result Z :=
  if in_range z then Ok z else Undefined.

Definition add (a b : Z) : result Z := checked (a + b).
Definition sub (a b : Z) : result Z := checked (a - b).
Definition mul (a b : Z) : result Z := checked (a * b).
(** C++ integer division truncates towards zero. *)
Definition div (a b : Z) : result Z :=
  if b =? 0 then Undefined else checked (Z.quot a b).
End Int.

(** 64-bit [size_t]. *)
Module Size.
Definition modulus : Z := 2 ^ 64.
Definition wrap (z : Z) : Z := z mod modulus.
Definition add (a b : Z) : Z := wrap (a + b).
Definition mul (a b : Z) : Z := wrap (a * b).
(** [static_cast<int>] of a [size_t], and the implicit conversion back. *)
Definition to_int (z : Z) : Z := Int.wrap z.
Definition of_int (z : Z) : Z := wrap z.
End Size.

(** IEEE-754 binary32, the C++ [float]. *)
Module F32.
Definition prec : Z := 24.
Definition emax : Z := 128.
Definition t : Type := spec_float.

Definition mul : t -> t -> t := SFmul prec emax.
Definition div : t -> t -> t := SFdiv prec emax.
Definition eqb : t -> t -> bool := SFeqb.
Definition neqb (a b : t) : bool := negb (eqb a b).
(** Conversion of an [int] (always exact below [2^24]). *)
Definition of_int (z : Z) : t := binary_normalize prec emax z 0 false.
(** The literal [n/d] written in decimal with suffix [f]: the binary32
    value nearest to the rational, [n] and [d] being exact. *)
Definition lit (n d : Z) : t := div (of_int n) (of_int d).
End F32.

(** IEEE-754 binary64, the C++ [double]. *)
Module F64.
Definition prec : Z := 53.
Definition emax : Z := 1024.
Definition t : Type := spec_float.

Definition mul : t -> t -> t := SFmul prec emax.
Definition div : t -> t -> t := SFdiv prec emax.
Definition of_int (z : Z) : t := binary_normalize prec emax z 0 false.
Definition lit (n d : Z) : t := div (of_int n) (of_int d).

(** [std::round]: to the nearest integer, halfway cases away from zero.
    Only finite values have an integer; the magnitude [m * 2^e] is
    rounded and the sign restored. *)
Definition round_magnitude (m : positive) (e : Z) : Z :=
  match e with
  | Z0 => Zpos m
  | Zpos _ => Zpos m * 2 ^ e
  | Zneg _ =>
      let d := 2 ^ (- e) in
      let q := Zpos m / d in
      let r := Zpos m mod d in
      if 2 * r <? d then q else q + 1
  end.

Definition round (x : t) : option Z :=
  match x with
  | S754_zero _ => Some 0
  | S754_finite s m e =>
      Some (if s then - round_magnitude m e else round_magnitude m e)
  | S754_infinity _ | S754_nan => None
  end.

(** [static_cast<int>(std::round(x))]: defined only when the rounded
    value is an [int]. *)
Definition round_to_int (x : t) : option Z :=
  match round x with
  | Some z =>
      if Int.in_range z then Some z else None
  | None => None
  end.
End F64.

(* ===================================================================== *)
(** * Data *)
(* ===================================================================== *)

(** [cv::Point2f]. *)
Record Point2f : Type := mkPoint2f { px : F32.t; py : F32.t }.

(** [operator!=] of [cv::Point_]: [a.x != b.x || a.y != b.y]. *)
Definition point_neqb (a b : Point2f) : bool :=
  F32.neqb (px a) (px b) || F32.neqb (py a) (py b).

(** [cv::Point2f(-1, -1)], the coordinate of an absent keypoint. *)
Definition sentinel : Point2f := mkPoint2f (F32.of_int (-1)) (F32.of_int (-1)).

(** [Peak] of the decoder: an id, a position and a score. *)
Record Peak : Type := mkPeak { peak_id : Z; peak_pos : Point2f; peak_score : F32.t }.

(** [HumanPose]: the keypoints, indexed by keypoint type, and a score. *)
Record HumanPose : Type := mkPose { keypoints : list Point2f; score : F32.t }.

(** A single-channel [CV_32FC1] [cv::Mat]. *)
Record Mat : Type := mkMat { rows : Z; cols : Z; data : list F32.t }.

(** A [cv::Mat] holding an image. *)
Record Image : Type := mkImage { img_cols : Z; img_rows : Z; pixels : list Z }.

(** [ov::Shape], a vector of [size_t]. *)
Abbreviation Shape := (list Z) (only parsing).

(** [std::vector<std::vector<Peak>>], indexed by keypoint type. *)
Abbreviation PeakTable := (list (list Peak)) (only parsing).

(** [cv::Size] and [cv::Rect], over [int]. *)
Record CvSize : Type := mkSize { width : Z; height : Z }.
Record CvRect : Type :=
  mkRect { rect_x : Z; rect_y : Z; rect_width : Z; rect_height : Z }.

(** [operator[]] of a [std::vector]: no bounds check. *)
Definition vec_at {A : Type} (v : list A) (i : nat) : result A :=
  match v !! i with
  | Some a => Ok a
  | None => Undefined
  end.

(** [v[i] = a]. *)
Definition vec_set {A : Type} (v : list A) (i : nat) (a : A) : result (list A) :=
  match v !! i with
  | Some _ => Ok (<[i := a]> v)
  | None => Undefined
  end.

(** A library call that may throw. *)
Definition lib {A : Type} (r : option A) : result A :=
  match r with
  | Some a => Ok a
  | None => Throw LibraryError
  end.

(* ===================================================================== *)
(** * The class and its constants *)
(* ===================================================================== *)

(** The integral static constants of the class are initialised in
    [models/hpe_model_openpose.h]; the functions below take them from
    this interface. [keypointsNumber] is a [size_t], the others [int]. *)
Class Header : Type := {
  keypointsNumber : Z;
  minJointsNumber : Z;
  stride : Z;
  upsampleRatio : Z
}.

(** Lines 33-37. *)
Definition meanPixel : F32.t * F32.t * F32.t :=
  (F32.of_int 128, F32.of_int 128, F32.of_int 128).
Definition minPeaksDistance : F32.t := F32.lit 3 1.               (* 3.0f  *)
Definition midPointsScoreThreshold : F32.t := F32.lit 5 100.      (* 0.05f *)
Definition foundMidPointsRatioThreshold : F32.t := F32.lit 8 10.  (* 0.8f  *)
Definition minSubsetScore : F32.t := F32.lit 2 10.                (* 0.2f  *)

(** The members of an [HPEOpenPose] object that this file reads or
    writes. *)
Record HPEOpenPose : Type := mkHPE {
  aspectRatio : F64.t;
  targetSize : Z;
  confidenceThreshold : F32.t;
  inputLayerSize : CvSize;
  inputsNames : list string;
  outputsNames : list string
}.

(** The constructor, lines 39-44. *)
Definition newHPEOpenPose (aspectRatio : F64.t) (targetSize : Z)
    (confidenceThreshold : F32.t) : HPEOpenPose :=
  mkHPE aspectRatio targetSize confidenceThreshold (mkSize 0 0) [] [].

Definition set_targetSize (this : HPEOpenPose) (t : Z) : HPEOpenPose :=
  mkHPE (aspectRatio this) t (confidenceThreshold this)
        (inputLayerSize this) (inputsNames this) (outputsNames this).
Definition set_inputLayerSize (this : HPEOpenPose) (s : CvSize) : HPEOpenPose :=
  mkHPE (aspectRatio this) (targetSize this) (confidenceThreshold this)
        s (inputsNames this) (outputsNames this).
Definition push_inputsName (this : HPEOpenPose) (n : string) : HPEOpenPose :=
  mkHPE (aspectRatio this) (targetSize this) (confidenceThreshold this)
        (inputLayerSize this) (inputsNames this ++ [n]) (outputsNames this).
Definition push_outputsName (this : HPEOpenPose) (n : string) : HPEOpenPose :=
  mkHPE (aspectRatio this) (targetSize this) (confidenceThreshold this)
        (inputLayerSize this) (inputsNames this) (outputsNames this ++ [n]).

(* ===================================================================== *)
(** * The pose-extraction driver *)
(* ===================================================================== *)

(** Modelled from the spec: the decoder ([models/openpose_decoder.h]) is
    not part of this file's source.  Following sections 4.1, 4.3 and 7 of
    the specification, peak finding is a function of one heat map, the
    minimal distance and the confidence threshold that yields the ordered
    candidates of that map, and pose grouping is a function of the
    candidate table, the PAF maps and the thresholds; both are
    deterministic and read the maps without writing them. *)
Class Decoder : Type := {
  peakFinder : Mat -> F32.t -> F32.t -> list Peak;
  groupPeaksToPoses :
    PeakTable -> list Mat -> Z -> F32.t -> F32.t -> Z -> F32.t -> list HumanPose
}.

(** The memory [extractPoses] works on: its two arguments and its local
    candidate table. *)
Record Mem : Type := mkMem {
  mem_heatMaps : list Mat;
  mem_pafs : list Mat;
  peaksFromHeatMap : PeakTable
}.

Definition set_peaks (m : Mem) (t : PeakTable) : Mem :=
  mkMem (mem_heatMaps m) (mem_pafs m) t.

(** Modelled from the spec: [findPeaks(heatMaps, minPeaksDistance,
    allPeaks, heatMapId, confidenceThreshold)] of the decoder appends the
    candidates of heat map [heatMapId] to slot [heatMapId] of the table
    and touches nothing else ("each task writes only to its own output
    slice"). *)
Definition findPeaks `{Decoder} (minPeaksDistance : F32.t) (heatMapId : nat)
    (confidenceThreshold : F32.t) (m : Mem) : Mem :=
  match mem_heatMaps m !! heatMapId with
  | Some heatMap =>
      set_peaks m
        (alter (fun found => found ++ peakFinder heatMap minPeaksDistance confidenceThreshold)
               heatMapId (peaksFromHeatMap m))
  | None => m
  end.

(** [cv::Range]: [start] inclusive, [end] exclusive. *)
Definition Range : Type := (nat * nat)%type.

Definition range_indices (r : Range) : list nat := seq (fst r) (snd r - fst r).

(** [FindPeaksBody::operator()], lines 194-198. *)
Definition FindPeaksBody `{Decoder} (minPeaksDistance confidenceThreshold : F32.t)
    (range : Range) (m : Mem) : Mem :=
  foldl (fun m i => findPeaks minPeaksDistance i confidenceThreshold m)
        m (range_indices range).

(** [cv::parallel_for_(cv::Range(0, n), body)] cuts the range into stripes
    and runs the body on every stripe, in an order of the library's
    choosing.  A schedule lists the stripes in the order in which they
    take effect; stripes of one index give every interleaving of single
    iterations. *)
Definition Schedule : Type := list Range.

Definition schedule_indices (s : Schedule) : list nat :=
  concat (range_indices <$> s).

Definition schedules (n : nat) (s : Schedule) : Prop :=
  schedule_indices s ≡ₚ seq 0 n.

Definition parallel_for_ (s : Schedule) (body : Range -> Mem -> Mem) (m : Mem) : Mem :=
  foldl (fun m range => body range m) m s.

Definition set_peak_id (p : Peak) (id : Z) : Peak :=
  mkPeak id (peak_pos p) (peak_score p).

(** Lines 217-219: [for (auto& peak : ...) peak.id += peaksBefore;] *)
Fixpoint add_to_ids (peaksBefore : Z) (peaks : list Peak) : result (list Peak) :=
  match peaks with
  | [] => Ok []
  | peak :: rest =>
      id ← Int.add (peak_id peak) peaksBefore;
      rest' ← add_to_ids peaksBefore rest;
      Ok (set_peak_id peak id :: rest')
  end.

(** Lines 215-220, for the values [heatmapIds] the counter runs through. *)
Fixpoint assign_ids_loop (heatmapIds : list nat) (peaksBefore : Z)
    (table : PeakTable) : result PeakTable :=
  match heatmapIds with
  | [] => Ok table
  | heatmapId :: rest =>
      prev ← vec_at table (heatmapId - 1);
      peaksBefore' ← Int.add peaksBefore (Size.to_int (Z.of_nat (length prev)));
      cur ← vec_at table heatmapId;
      cur' ← add_to_ids peaksBefore' cur;
      assign_ids_loop rest peaksBefore' (<[heatmapId := cur']> table)
  end.

(** Lines 214-220: [heatmapId] runs from 1 while below [heatMaps.size()]. *)
Definition assignGlobalIds (heatMapsSize : nat) (table : PeakTable) : result PeakTable :=
  assign_ids_loop (seq 1 (heatMapsSize - 1)) 0 table.

(** [HPEOpenPose::extractPoses], lines 207-225.  The result comes with the
    memory as the call leaves it. *)
Definition extractPoses `{Header} `{Decoder} (this : HPEOpenPose) (s : Schedule)
    (heatMaps pafs : list Mat) : result (list HumanPose * Mem) :=
  let m0 := mkMem heatMaps pafs (replicate (length heatMaps) []) in
  let m1 := parallel_for_ s (FindPeaksBody minPeaksDistance (confidenceThreshold this)) m0 in
  table ← assignGlobalIds (length (mem_heatMaps m1)) (peaksFromHeatMap m1);
  let m2 := set_peaks m1 table in
  Ok (groupPeaksToPoses (peaksFromHeatMap m2) (mem_pafs m2) keypointsNumber
        midPointsScoreThreshold foundMidPointsRatioThreshold
        minJointsNumber minSubsetScore,
      m2).


(* ===================================================================== *)
(** * Model-shape negotiation *)
(* ===================================================================== *)

(** An input or output of an [ov::Model]: the names of its tensor and a
    static shape. *)
Record Port : Type := mkPort { port_names : list string; port_shape : Shape }.

(** [get_any_name()] throws when the tensor has no name. *)
Definition get_any_name (port : Port) : result string :=
  match port_names port with
  | name :: _ => Ok name
  | [] => Throw LibraryError
  end.

(** An [ov::InferRequest], as far as the wrapper touches it. *)
Record InferRequest : Type := mkRequest { input_tensor : option Image }.

Record OvModel : Type := mkModel { inputs : list Port; outputs : list Port }.

(** The OpenVINO calls whose effect depends on the network: [reshape]
    with one named input shape, [PrePostProcessor::build] with the
    element types and layouts of lines 61-79, and
    [InferRequest::set_input_tensor].  [None] stands for an exception
    thrown inside the call. *)
Class OpenVINO : Type := {
  reshape : OvModel -> string -> Shape -> option OvModel;
  ppp_build : OvModel -> option OvModel;
  set_input_tensor : InferRequest -> Image -> option InferRequest
}.

(** [ov::Model::input()] throws unless the model has exactly one input. *)
Definition model_input (model : OvModel) : result Port :=
  match inputs model with
  | [input] => Ok input
  | _ => Throw LibraryError
  end.

(** [(x + stride - 1) / stride * stride] over [int], lines 104 and 106. *)
Definition round_up_to_stride `{Header} (x : Z) : result Z :=
  a ← Int.add x stride;
  b ← Int.sub a 1;
  q ← Int.div b stride;
  Int.mul q stride.

(** [static_cast<int>(std::round(targetSize * aspectRatio))], line 105. *)
Definition scaled_width (targetSize : Z) (aspectRatio : F64.t) : result Z :=
  match F64.round_to_int (F64.mul (F64.of_int targetSize) aspectRatio) with
  | Some z => Ok z
  | None => Undefined
  end.

(** [HPEOpenPose::changeInputSize], lines 98-114. *)
Definition changeInputSize `{Header} `{OpenVINO} (this : HPEOpenPose)
    (model : OvModel) : result (HPEOpenPose * OvModel) :=
  input ← model_input model;
  inTensorName ← get_any_name input;
  let inputShape := port_shape input in
  this ← (if targetSize this =? 0
          then d ← vec_at inputShape 2; Ok (set_targetSize this (Size.to_int d))
          else Ok this);
  height ← round_up_to_stride (targetSize this);
  inputWidth ← scaled_width (targetSize this) (aspectRatio this);
  width ← round_up_to_stride inputWidth;
  inputShape ← vec_set inputShape 0 1;
  inputShape ← vec_set inputShape 2 (Size.of_int height);
  inputShape ← vec_set inputShape 3 (Size.of_int width);
  w ← vec_at inputShape 3;
  h ← vec_at inputShape 2;
  let this := set_inputLayerSize this (mkSize (Size.to_int w) (Size.to_int h)) in
  model ← lib (reshape model inTensorName inputShape);
  Ok (this, model).

(** A dimension read after the size of the shape has been checked. *)
Definition dim (s : Shape) (i : nat) : Z := default 0 (s !! i).

(** [s.size() != 4 || s[0] != 1 || s[1] != channels], lines 58, 85, 90. *)
Definition not_1xCxHxW (s : Shape) (channels : Z) : bool :=
  negb (length s =? 4)%nat || negb (dim s 0 =? 1) || negb (dim s 1 =? channels).

(** Lines 73-79: every output is configured and its name recorded. *)
Fixpoint configure_outputs (this : HPEOpenPose) (outputs : list Port)
    : result HPEOpenPose :=
  match outputs with
  | [] => Ok this
  | output :: rest =>
      outTensorName ← get_any_name output;
      configure_outputs (push_outputsName this outTensorName) rest
  end.

(** [HPEOpenPose::prepareInputsOutputs], lines 46-96. *)
Definition prepareInputsOutputs `{Header} `{OpenVINO} (this : HPEOpenPose)
    (model : OvModel) : result (HPEOpenPose * OvModel) :=
  '(this, model) ← changeInputSize this model;
  let inputsInfo := inputs model in
  _ ← throw_if (negb (length inputsInfo =? 1)%nat) OneInputExpected;
  input ← model_input model;
  name ← get_any_name input;
  let this := push_inputsName this name in
  let inputShape := port_shape input in
  _ ← throw_if (not_1xCxHxW inputShape 3) InputShapeExpected;
  let outputsInfo := outputs model in
  _ ← throw_if (negb (length outputsInfo =? 2)%nat) TwoOutputsExpected;
  this ← configure_outputs this (outputs model);
  model ← lib (ppp_build model);
  heat ← vec_at outputsInfo 0;
  let heatmapsOutputShape := port_shape heat in
  _ ← throw_if (not_1xCxHxW heatmapsOutputShape (Size.add keypointsNumber 1))
        HeatmapShapeExpected;
  paf ← vec_at outputsInfo 1;
  let pafsOutputShape := port_shape paf in
  _ ← throw_if (not_1xCxHxW pafsOutputShape (Size.mul 2 (Size.add keypointsNumber 1)))
        PafShapeExpected;
  _ ← throw_if (negb (dim pafsOutputShape 2 =? dim heatmapsOutputShape 2)
                || negb (dim pafsOutputShape 3 =? dim heatmapsOutputShape 3))
        MapsMismatch;
  Ok (this, model).

(* ===================================================================== *)
(** * Per-image preprocessing *)
(* ===================================================================== *)

(** [InternalScaleData]. *)
Record InternalScaleData : Type := mkScaleData {
  inputImgWidth : Z;
  inputImgHeight : Z;
  scaleX : F32.t;
  scaleY : F32.t
}.

(** The image helpers defined outside this file: [resizeImageExt] of
    [utils/image_utils.h], called with [RESIZE_KEEP_ASPECT] and high
    quality, yields the padded image and the region the picture occupies
    in it; [wrapMat2Tensor] of [utils/ocv_common.hpp] shares the pixels
    with a tensor; [cv::resize] by a ratio with [INTER_CUBIC].  [None]
    stands for an exception thrown inside the call. *)
Class Imgproc : Type := {
  resizeImageExt : Image -> Z -> Z -> option (Image * CvRect);
  wrapMat2Tensor : Image -> option Image;
  cv_resize : Mat -> Z -> option Mat
}.

(** [HPEOpenPose::preprocess], lines 116-130: the scale data, the request
    with its input tensor set, and whether the warning was logged. *)
Definition preprocess `{Header} `{OpenVINO} `{Imgproc} (this : HPEOpenPose)
    (image : Image) (request : InferRequest)
    : result (InternalScaleData * InferRequest * bool) :=
  '(paddedImage, roi) ←
     lib (resizeImageExt image (width (inputLayerSize this)) (height (inputLayerSize this)));
  _ ← throw_if (width (inputLayerSize this) <? rect_width roi) AspectRatioMismatch;
  slack ← Int.sub (width (inputLayerSize this)) stride;
  let warned := rect_width roi <=? slack in
  tensor ← lib (wrapMat2Tensor paddedImage);
  request ← lib (set_input_tensor request tensor);
  Ok (mkScaleData (img_cols paddedImage) (img_rows paddedImage)
        (F32.div (F32.of_int (img_cols image)) (F32.of_int (rect_width roi)))
        (F32.div (F32.of_int (img_rows image)) (F32.of_int (rect_height roi))),
      request, warned).

(* ===================================================================== *)
(** * Postprocessing *)
(* ===================================================================== *)

(** An [ov::Tensor] of [float]s. *)
Record Tensor : Type := mkTensor { tensor_shape : Shape; tensor_data : list F32.t }.

(** [InferenceResult]: the frame id, the output tensors by name and the
    data [preprocess] returned for the frame. *)
Record InferenceResult : Type := mkInferenceResult {
  res_frameId : Z;
  outputsData : gmap string Tensor;
  internalModelData : InternalScaleData
}.

(** [HumanPoseResult]: the frame id and the poses. *)
Record HumanPoseResult : Type := mkResult { frameId : Z; poses : list HumanPose }.

(** Running a fallible body over the values of a loop counter and
    collecting what it yields. *)
Fixpoint for_each {A B : Type} (f : A -> result B) (l : list A) : result (list B) :=
  match l with
  | [] => Ok []
  | a :: rest => b ← f a; bs ← for_each f rest; Ok (b :: bs)
  end.

(** A [cv::Mat] header over memory it does not own (the constructor with
    a data pointer): the dimensions, the buffer pointed into and the
    position of the pointer in it, counted in floats. *)
Record MatHeader : Type := mkHeader {
  hdr_rows : Z;
  hdr_cols : Z;
  hdr_buffer : list F32.t;
  hdr_offset : Z
}.

(** Lines 146-147 and 153-154: the [i]-th map is a header of
    [shape[2] x shape[3]] floats over the tensor's buffer, its pointer
    [i * shape[2] * shape[3]] floats from the start.  The product is
    taken in [size_t]; the dimensions are narrowed to [int].  A pointer
    moved past the end of the buffer is undefined. *)
Definition feature_map (shape : Shape) (floats : list F32.t) (i : nat)
    : result MatHeader :=
  h ← vec_at shape 2;
  w ← vec_at shape 3;
  let offset := Size.mul (Size.mul (Z.of_nat i) h) w in
  if offset <=? Z.of_nat (length floats)
  then Ok (mkHeader (Size.to_int h) (Size.to_int w) floats offset)
  else Undefined.

(** The number of floats a header covers: none unless both dimensions
    are positive. *)
Definition hdr_total (m : MatHeader) : Z :=
  if (0 <? hdr_rows m) && (0 <? hdr_cols m) then hdr_rows m * hdr_cols m else 0.

(** Reading the floats under a header, as [cv::resize] does with its
    source.  Reading past the end of the buffer is undefined. *)
Definition read_header (m : MatHeader) : result Mat :=
  if hdr_offset m + hdr_total m <=? Z.of_nat (length (hdr_buffer m))
  then Ok (mkMat (hdr_rows m) (hdr_cols m)
             (take (Z.to_nat (hdr_total m)) (drop (Z.to_nat (hdr_offset m)) (hdr_buffer m))))
  else Undefined.

(** [HPEOpenPose::resizeFeatureMaps], lines 178-183: each header is
    replaced by the resized matrix, which owns its floats. *)
Definition resizeFeatureMaps `{Header} `{Imgproc} (featureMaps : list MatHeader)
    : result (list Mat) :=
  for_each (fun featureMap =>
              src ← read_header featureMap;
              lib (cv_resize src upsampleRatio)) featureMaps.

(** Lines 164-169, for one keypoint. *)
Definition rescale_keypoint (scaleX scaleY : F32.t) (keypoint : Point2f) : Point2f :=
  if point_neqb keypoint sentinel
  then mkPoint2f (F32.mul (px keypoint) scaleX) (F32.mul (py keypoint) scaleY)
  else keypoint.

(** Lines 163-170, for one pose. *)
Definition rescale_pose (scaleX scaleY : F32.t) (pose : HumanPose) : HumanPose :=
  mkPose (rescale_keypoint scaleX scaleY <$> keypoints pose) (score pose).

(** Lines 171-173, for the values the counter [i] runs through. *)
Fixpoint push_back_loop (counter : list nat) (poses : list HumanPose)
    (result_poses : list HumanPose) : result (list HumanPose) :=
  match counter with
  | [] => Ok result_poses
  | i :: rest =>
      pose ← vec_at poses i;
      push_back_loop rest poses (result_poses ++ [pose])
  end.

(** [ov::Tensor::get_shape] and [ov::Tensor::data]: the library throws
    for a tensor that was never initialised, which is what
    [std::map::operator[]] yields for a name that is not in the map. *)
Definition get_shape (tensor : option Tensor) : result Shape :=
  lib (tensor_shape <$> tensor).

Definition tensor_floats (tensor : option Tensor) : result (list F32.t) :=
  lib (tensor_data <$> tensor).

(** Lines 135-156: the feature maps handed to [extractPoses].  Both names
    are indexed (lines 135-136) before either tensor is asked for its
    shape (lines 138-139): the lookups themselves cannot throw, since
    [operator[]] adds a missing name to the map, with an uninitialised
    tensor that nothing reads afterwards.  The field maps are cut out
    with the dimensions of the heat-map tensor (lines 153-154). *)
Definition featureMaps `{Header} `{Imgproc} (this : HPEOpenPose)
    (infResult : InferenceResult) : result (list Mat * list Mat) :=
  name0 ← vec_at (outputsNames this) 0;
  let heatMapsMapped := outputsData infResult !! name0 in
  name1 ← vec_at (outputsNames this) 1;
  let outputMapped := outputsData infResult !! name1 in
  outputShape ← get_shape outputMapped;
  heatMapShape ← get_shape heatMapsMapped;
  predictions ← tensor_floats outputMapped;
  heats ← tensor_floats heatMapsMapped;
  heatMaps ← for_each (feature_map heatMapShape heats) (seq 0 (Z.to_nat keypointsNumber));
  heatMaps ← resizeFeatureMaps heatMaps;
  pafsSize ← vec_at outputShape 1;
  pafs ← for_each (feature_map heatMapShape predictions) (seq 0 (Z.to_nat pafsSize));
  pafs ← resizeFeatureMaps pafs;
  Ok (heatMaps, pafs).

(** [HPEOpenPose::postprocess], lines 132-176. *)
Definition postprocess `{Header} `{Decoder} `{Imgproc} (this : HPEOpenPose)
    (s : Schedule) (infResult : InferenceResult) : result HumanPoseResult :=
  let result := mkResult (res_frameId infResult) [] in
  let result_poses := poses result in
  '(heatMaps, pafs) ← featureMaps this infResult;
  '(poses, _) ← extractPoses this s heatMaps pafs;
  let scale := internalModelData infResult in
  ratio ← Int.div stride upsampleRatio;
  let scaleX := F32.mul (F32.of_int ratio) (scaleX scale) in
  let scaleY := F32.mul (F32.of_int ratio) (scaleY scale) in
  let poses := rescale_pose scaleX scaleY <$> poses in
  result_poses ← push_back_loop (seq 0 (length poses)) poses result_poses;
  Ok (mkResult (frameId result) result_poses).

(* ===================================================================== *)
(** * Specification vocabulary *)
(* ===================================================================== *)

(** The candidates of one type carry the local ids [0, 1, ..., n-1]. *)
Definition locally_numbered (peaks : list Peak) : Prop :=
  peak_id <$> peaks = Z.of_nat <$> seq 0 (length peaks).

(** The number of candidates of the types below [i]. *)
Definition peaks_before (table : PeakTable) (i : nat) : nat :=
  sum_list (length <$> take i table).

Definition total_peaks (table : PeakTable) : nat :=
  sum_list (length <$> table).

(** The candidates of one type carry the ids [first, first+1, ...]. *)
Definition numbered_from (first : nat) (peaks : list Peak) : Prop :=
  peak_id <$> peaks = Z.of_nat <$> seq first (length peaks).

(** Two candidate lists that differ in ids only. *)
Definition same_detections (peaks peaks' : list Peak) : Prop :=
  peak_pos <$> peaks' = peak_pos <$> peaks /\
  peak_score <$> peaks' = peak_score <$> peaks.

Definition shift_id (offset : Z) (p : Peak) : Peak :=
  set_peak_id p (peak_id p + offset).

(** [x] is a normal binary32 value nearest to the rational [n / d]:
    [x = m * 2^e] with a 24-bit [m], and [|m * 2^e - n / d|] is at most
    half a unit in the last place, [2^(e-1)]. *)
Definition nearest_binary32 (n d : Z) (x : F32.t) : Prop :=
  exists m e,
    x = S754_finite false m e /\
    e < 0 /\ 0 < d /\
    2 ^ 23 <= Zpos m < 2 ^ 24 /\
    2 * Z.abs (Zpos m * d - n * 2 ^ (- e)) <= d.

(** The last two dimensions of a shape: height and width. *)
Definition last_two (s : Shape) : list Z := drop (length s - 2) s.

(** The first two outputs of a model, the heat maps and the PAFs, differ
    in height or in width. *)
Definition maps_disagree (model : OvModel) : Prop :=
  exists heat paf,
    outputs model !! 0%nat = Some heat /\
    outputs model !! 1%nat = Some paf /\
    last_two (port_shape heat) <> last_two (port_shape paf).

(** The model has one input, a [1 x 3 x H x W] tensor. *)
Definition input_ok (model : OvModel) : Prop :=
  exists input h w, inputs model = [input] /\ port_shape input = [1; 3; h; w].

(** The shape preconditions on the maps: two outputs, heat maps
    [1 x (K+1) x H x W] and PAFs [1 x 2(K+1) x H x W] over the same [H]
    and [W], in [size_t] arithmetic. *)
Definition maps_ok `{Header} (model : OvModel) : Prop :=
  exists heat paf h w,
    outputs model = [heat; paf] /\
    port_shape heat = [1; Size.add keypointsNumber 1; h; w] /\
    port_shape paf = [1; Size.mul 2 (Size.add keypointsNumber 1); h; w].

(** Every tensor of the model has a name. *)
Definition named (model : OvModel) : Prop :=
  Forall (fun port => port_names port <> []) (inputs model ++ outputs model).

(** The counts of C7: two outputs, [K+1] heat-map channels and [2(K+1)]
    PAF channels. *)
Definition channel_counts_ok `{Header} (model : OvModel) : Prop :=
  exists heat paf,
    outputs model = [heat; paf] /\
    port_shape heat !! 1%nat = Some (keypointsNumber + 1) /\
    port_shape paf !! 1%nat = Some (2 * (keypointsNumber + 1)).

(** The [i]-th plane of [size] floats of a buffer. *)
Definition plane {A : Type} (size i : nat) (floats : list A) : list A :=
  take size (drop (i * size) floats).

(** [r] is the smallest multiple of [s] that is at least [x]. *)
Definition least_multiple_ge (s x r : Z) : Prop :=
  (exists k, r = k * s) /\ x <= r /\
  forall r', (exists k, r' = k * s) -> x <= r' -> r <= r'.

(* ===================================================================== *)
(** * A concrete configuration *)
(* ===================================================================== *)

(** The constants the demos are built with, a network of stride 8 with
    the two OpenPose outputs, and small stand-ins for the decoder and the
    image helpers; the examples below run the wrapper on them. *)
Module Demo.
Definition header : Header :=
  {| keypointsNumber := 18; minJointsNumber := 3; stride := 8; upsampleRatio := 4 |}.

(** Shape inference of a network of stride 8: when the input grows by 8
    rows or columns, each output grows by one. *)
Definition openvino : OpenVINO :=
  {| reshape model name shape :=
       match inputs model with
       | [input] =>
           if bool_decide (name ∈ port_names input)
           then Some (mkModel [mkPort (port_names input) shape]
                        ((fun o =>
                            mkPort (port_names o)
                              [dim (port_shape o) 0; dim (port_shape o) 1;
                               dim (port_shape o) 2
                               + (dim shape 2 - dim (port_shape input) 2) / 8;
                               dim (port_shape o) 3
                               + (dim shape 3 - dim (port_shape input) 3) / 8])
                           <$> outputs model))
           else None
       | _ => None
       end;
     ppp_build model := Some model;
     set_input_tensor _ tensor := Some (mkRequest (Some tensor)) |}.

Definition model : OvModel :=
  mkModel [mkPort ["data"] [1; 3; 256; 456]]
          [mkPort ["heatmaps"] [1; 19; 32; 57]; mkPort ["pafs"] [1; 38; 32; 57]].

(** The same network fed single-channel images. *)
Definition gray_model : OvModel :=
  mkModel [mkPort ["data"] [1; 1; 256; 456]]
          [mkPort ["heatmaps"] [1; 19; 32; 57]; mkPort ["pafs"] [1; 38; 32; 57]].

(** A network whose PAFs are one column wider than its heat maps. *)
Definition skewed_model : OvModel :=
  mkModel [mkPort ["data"] [1; 3; 256; 456]]
          [mkPort ["heatmaps"] [1; 19; 32; 57]; mkPort ["pafs"] [1; 38; 32; 58]].

(** A network with too few PAF channels. *)
Definition thin_model : OvModel :=
  mkModel [mkPort ["data"] [1; 3; 256; 456]]
          [mkPort ["heatmaps"] [1; 19; 32; 57]; mkPort ["pafs"] [1; 19; 32; 57]].

(** [HPEOpenPose(model, 456.0 / 256, 0, 0.1f)]. *)
Definition this : HPEOpenPose :=
  newHPEOpenPose (F64.lit 456 256) 0 (F32.lit 1 10).

(** A frame 1024 times taller than wide. *)
Definition this_tall : HPEOpenPose :=
  newHPEOpenPose (F64.lit 1 1024) 0 (F32.lit 1 10).

(** A negative target size. *)
Definition this_negative : HPEOpenPose :=
  newHPEOpenPose (F64.lit 1 1) (-9) (F32.lit 1 10).

(** Every value above the threshold is a candidate. *)
Definition decoder : Decoder :=
  {| peakFinder heatMap _ confidenceThreshold :=
       imap (fun i v => mkPeak (Z.of_nat i)
                          (mkPoint2f (F32.of_int (Z.of_nat i + 1)) (F32.of_int 2)) v)
            (List.filter (fun v => SFltb confidenceThreshold v) (data heatMap));
     groupPeaksToPoses allPeaks _ _ _ _ _ _ :=
       (fun p => mkPose [peak_pos p; sentinel] (peak_score p)) <$> concat allPeaks |}.

(** A decoder that reports the thresholds it is called with: every heat
    map has one candidate, at (distance, confidence); the first pose
    lists the candidates and has the mid-point threshold for its score,
    the next two have the ratio threshold and the subset threshold. *)
Definition recorder : Decoder :=
  {| peakFinder _ minPeaksDistance confidenceThreshold :=
       [mkPeak 0 (mkPoint2f minPeaksDistance confidenceThreshold) minPeaksDistance];
     groupPeaksToPoses allPeaks _ _ midPointsScoreThreshold
         foundMidPointsRatioThreshold _ minSubsetScore :=
       [mkPose (peak_pos <$> concat allPeaks) midPointsScoreThreshold;
        mkPose [] foundMidPointsRatioThreshold;
        mkPose [] minSubsetScore] |}.

(** The picture is scaled to fit the input with its aspect ratio kept,
    and padded on the right and below. *)
Definition imgproc : Imgproc :=
  {| resizeImageExt image w h :=
       let roi :=
         if w * img_rows image <=? h * img_cols image
         then mkRect 0 0 w (img_rows image * w / img_cols image)
         else mkRect 0 0 (img_cols image * h / img_rows image) h in
       Some (mkImage w h (pixels image), roi);
     wrapMat2Tensor image := Some image;
     cv_resize m ratio := Some m |}.

(** A resize helper that reports a region wider than the image it
    returns. *)
Definition imgproc_wide : Imgproc :=
  {| resizeImageExt image w h :=
       Some (mkImage w h (pixels image), mkRect 0 0 (w + 1) h);
     wrapMat2Tensor image := Some image;
     cv_resize m ratio := Some m |}.

Definition peak (id : Z) : Peak :=
  mkPeak id (mkPoint2f (F32.of_int id) (F32.of_int 0)) (F32.lit 1 2).

(** Two, three and one candidates for three keypoint types. *)
Definition table : PeakTable :=
  [[peak 0; peak 1]; [peak 0; peak 1; peak 2]; [peak 0]].

Definition heat (values : list Z) : Mat :=
  mkMat 1 (Z.of_nat (length values)) ((fun v => F32.lit v 10) <$> values).

(** Three heat maps with two, one and no values above 0.1. *)
Definition heatMaps : list Mat := [heat [5; 0; 7]; heat [0; 9]; heat [0; 0]].
Definition pafs : list Mat := [heat [1; 1]; heat [2; 2]].

(** The iterations one by one, last first, and in two stripes. *)
Definition backwards : Schedule := [(2, 3); (1, 2); (0, 1)]%nat.
Definition striped : Schedule := [(1, 3); (0, 1)]%nat.
(** One stripe for the whole range. *)
Definition sequential (n : nat) : Schedule := [(0, n)%nat].

(** A two-keypoint class and an inference result of [1 x 3 x 1 x 2] heat
    maps and [1 x 6 x 1 x 2] PAFs. *)
Definition small_header : Header :=
  {| keypointsNumber := 2; minJointsNumber := 3; stride := 8; upsampleRatio := 4 |}.

Definition ready : HPEOpenPose :=
  mkHPE (F64.lit 456 256) 256 (F32.lit 1 10) (mkSize 456 256) ["data"]
        ["heatmaps"; "pafs"].

Definition infResult : InferenceResult :=
  mkInferenceResult 7
    (<["heatmaps" := mkTensor [1; 3; 1; 2] ((fun v => F32.lit v 10) <$> [5; 0; 0; 9; 0; 0])]>
       (<["pafs" := mkTensor [1; 6; 1; 2] (replicate 12 (F32.lit 1 10))]> ∅))
    (mkScaleData 456 256 (F32.lit 3 2) (F32.lit 5 4)).

Definition image : Image := mkImage 640 480 [].

(** Candidates that arrive with ids of their own. *)
Definition unnumbered : PeakTable := [[peak 7]; [peak 7; peak 9]].

(** A network whose input has no batch dimension. *)
Definition flat_model : OvModel :=
  mkModel [mkPort ["data"] [3; 256; 456]]
          [mkPort ["heatmaps"] [1; 19; 32; 57]; mkPort ["pafs"] [1; 38; 32; 57]].

(** A network whose heat maps and PAFs both have the wrong channels. *)
Definition odd_model : OvModel :=
  mkModel [mkPort ["data"] [1; 3; 256; 456]]
          [mkPort ["heatmaps"] [1; 18; 32; 57]; mkPort ["pafs"] [1; 36; 32; 58]].

(** An object on which [prepareInputsOutputs] has not run. *)
Definition unprepared : HPEOpenPose := newHPEOpenPose (F64.lit 456 256) 256 (F32.lit 1 10).

(** An object that recorded one output name only, one not in the
    inference result. *)
Definition half_prepared : HPEOpenPose :=
  mkHPE (F64.lit 456 256) 256 (F32.lit 1 10) (mkSize 456 256) ["data"] ["scores"].

(** A tensor of 3 planes of 1 x 2 floats. *)
Definition planes : list F32.t := (fun v => F32.lit v 10) <$> [5; 0; 0; 9; 0; 0].
End Demo.

(* ===================================================================== *)
(** * Machine arithmetic *)
(* ===================================================================== *)

Lemma int_in_range_iff z :
  Int.in_range z = true <-> Int.min_signed <= z <= Int.max_signed.
Proof. unfold Int.in_range. rewrite andb_true_iff, !Z.leb_le. tauto. Qed.

Lemma int_checked_ok z :
  Int.min_signed <= z <= Int.max_signed -> Int.checked z = Ok z.
Proof.
  intros Hz. unfold Int.checked.
  destruct (Int.in_range z) eqn:E; [done|].
  apply int_in_range_iff in Hz. congruence.
Qed.

Lemma int_checked_inv z r :
  Int.checked z = Ok r -> r = z /\ Int.min_signed <= z <= Int.max_signed.
Proof.
  unfold Int.checked. destruct (Int.in_range z) eqn:E; [|done].
  intros [= <-]. split; [done|]. by apply int_in_range_iff.
Qed.

Lemma int_wrap_id z :
  Int.min_signed <= z <= Int.max_signed -> Int.wrap z = z.
Proof.
  unfold Int.wrap, Int.modulus, Int.min_signed, Int.max_signed. intros Hz.
  rewrite Z.mod_small; lia.
Qed.

(** An [int] stored in a [size_t] and read back is the same [int]. *)
Lemma size_int_roundtrip z :
  Int.min_signed <= z <= Int.max_signed -> Size.to_int (Size.of_int z) = z.
Proof.
  unfold Size.to_int, Size.of_int, Size.wrap, Size.modulus, Int.wrap, Int.modulus,
    Int.min_signed, Int.max_signed.
  intros Hz.
  destruct (Z_lt_le_dec z 0) as [Hneg|Hpos].
  - replace (z mod 2 ^ 64) with (z + 2 ^ 64)
      by (apply Z.mod_unique with (q := -1); lia).
    replace ((z + 2 ^ 64 + 2 ^ 31) mod 2 ^ 32) with (z + 2 ^ 31)
      by (apply Z.mod_unique with (q := 2 ^ 32); lia).
    lia.
  - rewrite (Z.mod_small z); [|lia]. rewrite Z.mod_small; lia.
Qed.

(* ===================================================================== *)
(** * Results *)
(* ===================================================================== *)

Lemma bind_ok_inv {A B : Type} (r : result A) (k : A -> result B) (b : B) :
  r ≫= k = Ok b -> exists a, r = Ok a /\ k a = Ok b.
Proof. destruct r as [a| |]; [eauto|done|done]. Qed.

Lemma throw_if_ok_inv c e u : throw_if c e = Ok u -> c = false.
Proof. by destruct c. Qed.

Lemma vec_at_ok {A : Type} (v : list A) i a : v !! i = Some a -> vec_at v i = Ok a.
Proof. unfold vec_at. by intros ->. Qed.

Lemma vec_at_inv {A : Type} (v : list A) i a : vec_at v i = Ok a -> v !! i = Some a.
Proof. unfold vec_at. destruct (v !! i); [by intros [= ->]|done]. Qed.

(* ===================================================================== *)
(** * Global candidate ids *)
(* ===================================================================== *)

Lemma peaks_before_le_total table i : (peaks_before table i <= total_peaks table)%nat.
Proof.
  unfold peaks_before, total_peaks.
  rewrite <- (take_drop i table) at 2.
  rewrite fmap_app, sum_list_with_app. lia.
Qed.

Lemma peaks_before_S table i peaks :
  table !! i = Some peaks ->
  peaks_before table (S i) = (peaks_before table i + length peaks)%nat.
Proof.
  intros Hi. unfold peaks_before.
  rewrite (take_S_r _ _ _ Hi), fmap_app, sum_list_with_app. simpl. lia.
Qed.

Lemma peaks_before_lengths table table' i :
  length <$> table' = length <$> table ->
  peaks_before table' i = peaks_before table i.
Proof.
  intros Hlen. unfold peaks_before. by rewrite !fmap_take, Hlen.
Qed.

Lemma total_peaks_lengths table table' :
  length <$> table' = length <$> table -> total_peaks table' = total_peaks table.
Proof. unfold total_peaks. by intros ->. Qed.

Lemma add_to_ids_shift peaksBefore peaks :
  Forall (fun p => Int.min_signed <= peak_id p + peaksBefore <= Int.max_signed) peaks ->
  add_to_ids peaksBefore peaks = Ok (shift_id peaksBefore <$> peaks).
Proof.
  induction 1 as [|p peaks Hp _ IH]; [done|].
  simpl. unfold Int.add. rewrite (int_checked_ok _ Hp). simpl.
  by rewrite IH.
Qed.

Lemma insert_same_lengths (table : PeakTable) k cur cur' :
  table !! k = Some cur -> length cur' = length cur ->
  length <$> <[k := cur']> table = length <$> table.
Proof.
  intros Hk Hlen. rewrite list_fmap_insert, Hlen.
  apply list_insert_id. by rewrite list_lookup_fmap, Hk.
Qed.

(** The loop of lines 215-220, started at [k] with [peaksBefore] equal to
    the number of candidates below type [k - 1], shifts every type in
    [[k, k + m)] by the number of candidates of the types below it. *)
Lemma assign_ids_loop_spec m : forall k peaksBefore (table : PeakTable),
  (1 <= k)%nat -> (k + m <= length table)%nat ->
  peaksBefore = Z.of_nat (peaks_before table (k - 1)) ->
  Z.of_nat (total_peaks table) <= Int.max_signed ->
  (forall i peaks, (k <= i)%nat -> table !! i = Some peaks ->
     Forall (fun p => 0 <= peak_id p < Z.of_nat (length peaks)) peaks) ->
  exists table',
    assign_ids_loop (seq k m) peaksBefore table = Ok table' /\
    forall i, table' !! i =
      if decide (k <= i < k + m)%nat
      then fmap (shift_id (Z.of_nat (peaks_before table i))) <$> table !! i
      else table !! i.
Proof.
  induction m as [|m IH]; intros k pb table Hk Hlen Hpb Htotal Hlocal.
  - exists table. split; [done|]. intros i. case_decide; [lia|done].
  - destruct (lookup_lt_is_Some_2 table (k - 1)) as [prev Hprev]; [lia|].
    destruct (lookup_lt_is_Some_2 table k) as [cur Hcur]; [lia|].
    assert (Hbefore : peaks_before table k
                      = (peaks_before table (k - 1) + length prev)%nat).
    { replace k with (S (k - 1)) at 1 by lia. by apply peaks_before_S. }
    pose proof (peaks_before_le_total table k) as Hle.
    pose proof (peaks_before_le_total table (S k)) as HleS.
    rewrite (peaks_before_S _ _ _ Hcur) in HleS.
    assert (Hmax : Int.max_signed = 2147483647) by reflexivity.
    assert (Hmin : Int.min_signed = -2147483648) by reflexivity.
    set (pb' := Z.of_nat (peaks_before table k)).
    assert (Hshift : length (shift_id pb' <$> cur) = length cur)
      by apply length_fmap.
    destruct (IH (S k) pb' (<[k := shift_id pb' <$> cur]> table))
      as (table' & Hrun & Hspec).
    + lia.
    + rewrite length_insert. lia.
    + replace (S k - 1)%nat with k by lia. unfold pb'. f_equal. symmetry.
      apply peaks_before_lengths. by eapply insert_same_lengths.
    + erewrite total_peaks_lengths; [done|]. by eapply insert_same_lengths.
    + intros i peaks Hi. rewrite list_lookup_insert_ne by lia. apply Hlocal. lia.
    + exists table'. split.
      * cbn [seq assign_ids_loop].
        rewrite (vec_at_ok _ _ _ Hprev). cbn.
        unfold Int.add, Size.to_int. rewrite int_wrap_id by lia.
        rewrite int_checked_ok by lia. cbn.
        rewrite (vec_at_ok _ _ _ Hcur). cbn.
        replace (pb + Z.of_nat (length prev)) with pb' by (unfold pb'; lia).
        rewrite add_to_ids_shift; [done|].
        eapply Forall_impl; [by eapply (Hlocal k cur)|]. cbn. intros p Hp. lia.
      * intros i. rewrite Hspec.
        destruct (decide (i = k)) as [->|Hne].
        -- rewrite list_lookup_insert_eq by lia.
           rewrite decide_False by lia. rewrite decide_True by lia.
           by rewrite Hcur.
        -- rewrite list_lookup_insert_ne by done.
           rewrite (peaks_before_lengths table (<[k:=_]> table))
             by (by eapply insert_same_lengths).
           repeat case_decide; (done || lia).
Qed.

Lemma shift_id_0 p : shift_id 0 p = p.
Proof. destruct p as [id pos sc]. unfold shift_id, set_peak_id. cbn. f_equal. lia. Qed.

Lemma locally_numbered_bounds peaks :
  locally_numbered peaks ->
  Forall (fun p => 0 <= peak_id p < Z.of_nat (length peaks)) peaks.
Proof.
  intros Hnum. apply Forall_lookup_2. intros j p Hj.
  assert (Hid : (peak_id <$> peaks) !! j = Some (peak_id p))
    by (by rewrite list_lookup_fmap, Hj).
  rewrite Hnum, list_lookup_fmap in Hid.
  destruct (seq 0 (length peaks) !! j) as [j'|] eqn:Hseq; [|done].
  apply lookup_seq in Hseq as [-> Hlt]. injection Hid as <-. lia.
Qed.

Lemma shift_numbered_from first peaks :
  locally_numbered peaks ->
  numbered_from first (shift_id (Z.of_nat first) <$> peaks).
Proof.
  unfold locally_numbered, numbered_from. intros Hnum.
  rewrite length_fmap, <- list_fmap_compose.
  transitivity ((fun z => z + Z.of_nat first) <$> (peak_id <$> peaks)).
  { rewrite <- list_fmap_compose. by apply list_fmap_ext. }
  rewrite Hnum, <- list_fmap_compose.
  replace (seq first (length peaks)) with (Nat.add first <$> seq 0 (length peaks))
    by (rewrite fmap_add_seq; f_equal; lia).
  rewrite <- list_fmap_compose.
  apply list_fmap_ext. intros _ j _. cbn. lia.
Qed.

Lemma shift_same_detections offset peaks :
  same_detections peaks (shift_id offset <$> peaks).
Proof.
  unfold same_detections. rewrite <- !list_fmap_compose.
  split; by apply list_fmap_ext.
Qed.

(** Lines 214-220 on a table whose sizes fit an [int]: every type is
    shifted by the number of candidates of the types below it. *)
Lemma assignGlobalIds_shift (table : PeakTable) :
  Forall locally_numbered table ->
  Z.of_nat (total_peaks table) <= Int.max_signed ->
  exists table',
    assignGlobalIds (length table) table = Ok table' /\
    forall i, table' !! i =
      fmap (shift_id (Z.of_nat (peaks_before table i))) <$> table !! i.
Proof.
  intros Hlocal Htotal. unfold assignGlobalIds.
  destruct (decide (table = [])) as [->|Hne]; [by exists []|].
  destruct (assign_ids_loop_spec (length table - 1) 1 0 table)
    as (table' & Hrun & Hspec).
  - lia.
  - destruct table; [done|cbn; lia].
  - done.
  - done.
  - intros i peaks _ Hi. apply locally_numbered_bounds.
    by eapply (proj1 (Forall_lookup _ _) Hlocal).
  - exists table'. split; [done|]. intros i. rewrite Hspec.
    case_decide as Hi; [done|].
    destruct (table !! i) as [peaks|] eqn:Hlook; [|done].
    apply lookup_lt_Some in Hlook as Hlt.
    assert (i = 0)%nat as -> by lia.
    cbn. f_equal. symmetry. rewrite <- (list_fmap_id peaks) at 2.
    apply list_fmap_ext. intros _ p _. apply shift_id_0.
Qed.

(** ** C1 *)


(* ===================================================================== *)
(** * Parallel peak extraction *)
(* ===================================================================== *)

Section PeakExtraction.
Context `{Decoder}.
Variables (minDist conf : F32.t).

Local Abbreviation step := (fun (m : Mem) (i : nat) => findPeaks minDist i conf m).

Lemma findPeaks_heatMaps i m : mem_heatMaps (step m i) = mem_heatMaps m.
Proof. unfold findPeaks. by destruct (mem_heatMaps m !! i). Qed.

Lemma findPeaks_pafs i m : mem_pafs (step m i) = mem_pafs m.
Proof. unfold findPeaks. by destruct (mem_heatMaps m !! i). Qed.

(** Two iterations take effect in either order. *)
Lemma findPeaks_comm m i j : step (step m i) j = step (step m j) i.
Proof.
  destruct (decide (i = j)) as [->|Hne]; [done|].
  unfold findPeaks.
  destruct (mem_heatMaps m !! i) as [hi|] eqn:Hi;
    destruct (mem_heatMaps m !! j) as [hj|] eqn:Hj;
    cbn; rewrite ?Hi, ?Hj; try done.
  unfold set_peaks. cbn. f_equal. by apply list_alter_alter_ne.
Qed.

Lemma foldl_comm_perm (l1 l2 : list nat) :
  l1 ≡ₚ l2 -> forall m, foldl step m l1 = foldl step m l2.
Proof.
  induction 1 as [|x l1 l2 _ IH|x y l|l1 l2 l3 _ IH1 _ IH2]; intros m; cbn.
  - done.
  - apply IH.
  - by rewrite findPeaks_comm.
  - by rewrite IH1.
Qed.

(** Running the stripes of a schedule one after the other is running
    the iterations in the order the schedule lists them. *)
Lemma parallel_for_indices (s : Schedule) m :
  parallel_for_ s (FindPeaksBody minDist conf) m
  = foldl step m (schedule_indices s).
Proof.
  unfold parallel_for_, schedule_indices. revert m.
  induction s as [|range s IH]; intros m; [done|].
  cbn. rewrite foldl_app, IH. done.
Qed.

(** The iterations [0 .. k) in order fill the first [k] slots. *)
Lemma findPeaks_in_order heatMaps pafs k :
  (k <= length heatMaps)%nat ->
  foldl step (mkMem heatMaps pafs (replicate (length heatMaps) [])) (seq 0 k)
  = mkMem heatMaps pafs
      (((fun heatMap => peakFinder heatMap minDist conf) <$> take k heatMaps)
       ++ replicate (length heatMaps - k) []).
Proof.
  induction k as [|k IH]; intros Hk.
  - cbn. by rewrite take_0, Nat.sub_0_r.
  - rewrite seq_S, foldl_app, IH by lia. cbn.
    destruct (lookup_lt_is_Some_2 heatMaps k) as [heatMap Hlook]; [lia|].
    unfold findPeaks. cbn. rewrite Hlook. unfold set_peaks. cbn.
    f_equal.
    rewrite alter_app_r_alt by (rewrite length_fmap, length_take; lia).
    rewrite length_fmap, length_take_le by lia.
    replace (k - k)%nat with 0%nat by lia.
    replace (length heatMaps - k)%nat with (S (length heatMaps - S k)) by lia.
    rewrite (take_S_r _ _ _ Hlook), fmap_app. cbn.
    by rewrite <- app_assoc.
Qed.

(** Whatever the schedule, the parallel loop leaves the table that holds
    the candidates of heat map [i] in slot [i]. *)
Lemma parallel_for_findPeaks (s : Schedule) heatMaps pafs :
  schedules (length heatMaps) s ->
  parallel_for_ s (FindPeaksBody minDist conf)
    (mkMem heatMaps pafs (replicate (length heatMaps) []))
  = mkMem heatMaps pafs ((fun heatMap => peakFinder heatMap minDist conf) <$> heatMaps).
Proof.
  intros Hs. rewrite parallel_for_indices.
  rewrite (foldl_comm_perm _ _ Hs), findPeaks_in_order by done.
  by rewrite take_ge, Nat.sub_diag, app_nil_r.
Qed.
End PeakExtraction.

(* ===================================================================== *)
(** * The driver *)
(* ===================================================================== *)

Section Driver.
Context `{Header} `{Decoder}.

Lemma parallel_for_frame (s : Schedule) minDist conf m :
  mem_heatMaps (parallel_for_ s (FindPeaksBody minDist conf) m) = mem_heatMaps m /\
  mem_pafs (parallel_for_ s (FindPeaksBody minDist conf) m) = mem_pafs m.
Proof.
  rewrite parallel_for_indices. generalize (schedule_indices s) as l.
  intros l. revert m. induction l as [|i l IH]; intros m; [done|].
  cbn. destruct (IH (findPeaks minDist i conf m)) as [-> ->].
  split; [apply findPeaks_heatMaps|apply findPeaks_pafs].
Qed.

(** Under any schedule of the parallel loop, [extractPoses] numbers the
    candidates that peak finding yields for each heat map and groups
    them. *)
Lemma extractPoses_scheduled this (s : Schedule) heatMaps pafs :
  schedules (length heatMaps) s ->
  extractPoses this s heatMaps pafs =
    (table ← assignGlobalIds (length heatMaps)
               ((fun heatMap => peakFinder heatMap minPeaksDistance (confidenceThreshold this))
                  <$> heatMaps);
     Ok (groupPeaksToPoses table pafs keypointsNumber midPointsScoreThreshold
           foundMidPointsRatioThreshold minJointsNumber minSubsetScore,
         mkMem heatMaps pafs table)).
Proof.
  intros Hs. unfold extractPoses.
  by rewrite (parallel_for_findPeaks _ _ _ _ _ Hs).
Qed.

(** In the table [extractPoses] hands to the grouping, the candidates of
    heat map [i] are the ones peak finding yields for it, their ids
    shifted by the number of candidates of the heat maps before. *)
Lemma extractPoses_ids this (s : Schedule) heatMaps pafs :
  schedules (length heatMaps) s ->
  let found := (fun heatMap => peakFinder heatMap minPeaksDistance (confidenceThreshold this))
                 <$> heatMaps in
  Forall locally_numbered found ->
  Z.of_nat (total_peaks found) <= Int.max_signed ->
  exists poses m,
    extractPoses this s heatMaps pafs = Ok (poses, m) /\
    poses = groupPeaksToPoses (peaksFromHeatMap m) pafs keypointsNumber
              midPointsScoreThreshold foundMidPointsRatioThreshold
              minJointsNumber minSubsetScore /\
    forall i, peaksFromHeatMap m !! i =
      fmap (shift_id (Z.of_nat (peaks_before found i))) <$> found !! i.
Proof.
  intros Hs found Hlocal Htotal.
  destruct (assignGlobalIds_shift found Hlocal Htotal) as (table & Hrun & Hspec).
  unfold found in Hrun. rewrite length_fmap in Hrun.
  rewrite (extractPoses_scheduled this s) by done.
  rewrite Hrun. cbn. by eexists _, _.
Qed.

(** ** C4 *)

(** C4.  Two runs of [extractPoses] on the same heat maps and PAF maps,
    by objects with the same confidence threshold (the other thresholds
    are constants of the class), return the same outcome whatever order
    the parallel loop took in either run: the same poses in the same
    order, with equal coordinates and scores. *)
Theorem extractPoses_deterministic this1 this2 (s1 s2 : Schedule) heatMaps pafs :
  confidenceThreshold this1 = confidenceThreshold this2 ->
  schedules (length heatMaps) s1 ->
  schedules (length heatMaps) s2 ->
  extractPoses this1 s1 heatMaps pafs = extractPoses this2 s2 heatMaps pafs.
Proof.
  intros Hconf Hs1 Hs2.
  rewrite (extractPoses_scheduled this1 s1) by done.
  rewrite (extractPoses_scheduled this2 s2) by done.
  by rewrite Hconf.
Qed.

(** ** C8 *)

(** C8.  When [extractPoses] returns, the heat maps and the PAF maps in
    memory are the ones it was given: the parallel peak extraction, the id
    assignment and the grouping wrote to the candidate table only.  This
    holds for every order of the parallel loop. *)
Theorem extractPoses_preserves_maps this (s : Schedule) heatMaps pafs poses m :
  extractPoses this s heatMaps pafs = Ok (poses, m) ->
  mem_heatMaps m = heatMaps /\ mem_pafs m = pafs.
Proof.
  unfold extractPoses. intros Hrun.
  apply bind_ok_inv in Hrun as (table & _ & Hret).
  injection Hret as _ <-. cbn.
  by destruct (parallel_for_frame s minPeaksDistance (confidenceThreshold this)
                 (mkMem heatMaps pafs (replicate (length heatMaps) []))) as [-> ->].
Qed.

(** ** C9 *)

(** C9.  The four thresholds are the binary32 values of the literals
    [3.0f], [0.05f], [0.8f] and [0.2f] (3 exactly, the others the nearest
    binary32 values to 0.05, 0.8 and 0.2), and they are the values the
    decoder receives: under any schedule of the parallel loop, the
    candidates [extractPoses] numbers are the ones peak finding yields
    for each heat map when called with the distance [3.0f] and the
    confidence threshold of the object, and the poses are the ones
    [groupPeaksToPoses] yields when called with [0.05f], [0.8f] and
    [0.2f]. *)
Theorem thresholds_are_the_defaults this (s : Schedule) heatMaps pafs :
  schedules (length heatMaps) s ->
  minPeaksDistance = F32.of_int 3 /\
  nearest_binary32 3 1 minPeaksDistance /\
  nearest_binary32 5 100 midPointsScoreThreshold /\
  nearest_binary32 8 10 foundMidPointsRatioThreshold /\
  nearest_binary32 2 10 minSubsetScore /\
  extractPoses this s heatMaps pafs =
    (table ← assignGlobalIds (length heatMaps)
               ((fun heatMap => peakFinder heatMap (F32.of_int 3) (confidenceThreshold this))
                  <$> heatMaps);
     Ok (groupPeaksToPoses table pafs keypointsNumber
           (F32.lit 5 100) (F32.lit 8 10) minJointsNumber (F32.lit 2 10),
         mkMem heatMaps pafs table)).
Proof.
  intros Hs. split; [reflexivity|].
  repeat split;
    try (eexists _, _; split; [vm_compute; reflexivity|];
         split; [reflexivity|]; split; [reflexivity|];
         split; [split; [by vm_compute|reflexivity]|by vm_compute]).
  rewrite (extractPoses_scheduled this s) by done.
  assert (Hdist : minPeaksDistance = F32.of_int 3) by reflexivity.
  by rewrite Hdist.
Qed.
End Driver.

(* ===================================================================== *)
(** * Postprocessing *)
(* ===================================================================== *)

(** A finite value compares equal to itself only. *)
Lemma SFeqb_finite_inv (x : spec_float) s m e :
  SFeqb x (S754_finite s m e) = true -> x = S754_finite s m e.
Proof.
  unfold SFeqb, SFcompare.
  destruct x as [sx|sx| |sx mx ex]; try (by destruct s); try (by destruct sx).
  change (Pos.compare_cont Eq mx m) with (mx ?= m)%positive.
  destruct sx, s; try done;
    destruct (Z.compare_spec ex e) as [->| |]; try done;
    destruct (Pos.compare_spec mx m) as [->| |]; done.
Qed.

(** Only the sentinel coordinate compares equal to [-1.0f]. *)
Lemma eqb_minus_one (x : F32.t) :
  F32.eqb x (F32.of_int (-1)) = true -> x = F32.of_int (-1).
Proof. apply SFeqb_finite_inv. Qed.

Lemma point_eq_sentinel (keypoint : Point2f) :
  point_neqb keypoint sentinel = false -> keypoint = sentinel.
Proof.
  unfold point_neqb, F32.neqb. rewrite orb_false_iff, !negb_false_iff.
  intros [Hx Hy]. apply eqb_minus_one in Hx, Hy.
  destruct keypoint as [x y]. cbn in *. by subst.
Qed.

(** The sentinel is left alone, whatever the scale factors. *)
Lemma rescale_sentinel (scaleX scaleY : F32.t) :
  rescale_keypoint scaleX scaleY sentinel = sentinel.
Proof. reflexivity. Qed.

(** Every other keypoint is multiplied. *)
Lemma rescale_other (scaleX scaleY : F32.t) (keypoint : Point2f) :
  keypoint <> sentinel ->
  rescale_keypoint scaleX scaleY keypoint
  = mkPoint2f (F32.mul (px keypoint) scaleX) (F32.mul (py keypoint) scaleY).
Proof.
  intros Hne. unfold rescale_keypoint.
  destruct (point_neqb keypoint sentinel) eqn:Hcmp; [done|].
  by apply point_eq_sentinel in Hcmp.
Qed.

(** The loop of lines 171-173 appends the poses in index order. *)
Lemma push_back_loop_app m : forall k poses result_poses,
  (k + m <= length poses)%nat ->
  push_back_loop (seq k m) poses result_poses
  = Ok (result_poses ++ take m (drop k poses)).
Proof.
  induction m as [|m IH]; intros k poses acc Hlen.
  - cbn. by rewrite app_nil_r.
  - destruct (lookup_lt_is_Some_2 poses k) as [pose Hpose]; [lia|].
    cbn. rewrite (vec_at_ok _ _ _ Hpose). cbn.
    rewrite IH by lia. f_equal.
    rewrite <- app_assoc. f_equal. cbn.
    rewrite (drop_S _ _ _ Hpose). done.
Qed.

Lemma push_back_loop_all poses :
  push_back_loop (seq 0 (length poses)) poses [] = Ok poses.
Proof. rewrite push_back_loop_app by lia. cbn. by rewrite take_ge. Qed.

Section Postprocess.
Context `{Header} `{Decoder} `{Imgproc}.

(** Once the feature maps are built, the poses extracted and the ratio
    of stride to upsampling computed, [postprocess] returns the extracted
    poses, each rescaled, in the order of extraction. *)
Lemma postprocess_returns this (s : Schedule) infResult heatMaps pafs poses m ratio :
  featureMaps this infResult = Ok (heatMaps, pafs) ->
  extractPoses this s heatMaps pafs = Ok (poses, m) ->
  Int.div stride upsampleRatio = Ok ratio ->
  postprocess this s infResult =
    Ok (mkResult (res_frameId infResult)
          (rescale_pose (F32.mul (F32.of_int ratio) (scaleX (internalModelData infResult)))
                        (F32.mul (F32.of_int ratio) (scaleY (internalModelData infResult)))
             <$> poses)).
Proof.
  intros Hmaps Hposes Hratio. unfold postprocess.
  rewrite Hmaps. cbn. rewrite Hposes. cbn. rewrite Hratio. cbn.
  by rewrite push_back_loop_all.
Qed.

(** ** C5 *)

(** C5.  In the result [postprocess] returns, pose [p] has the score and
    the number of keypoints of the [p]-th extracted pose.  A keypoint that
    is the sentinel [(-1,-1)], both coordinates the float [-1.0], is still
    exactly [(-1,-1)]; every other keypoint, whatever its coordinates, has
    [x] multiplied by the x scale factor and [y] by the y scale factor. *)
Theorem postprocess_rescales_keypoints
    this (s : Schedule) infResult heatMaps pafs extracted m ratio :
  featureMaps this infResult = Ok (heatMaps, pafs) ->
  extractPoses this s heatMaps pafs = Ok (extracted, m) ->
  Int.div stride upsampleRatio = Ok ratio ->
  let scaleX := F32.mul (F32.of_int ratio) (scaleX (internalModelData infResult)) in
  let scaleY := F32.mul (F32.of_int ratio) (scaleY (internalModelData infResult)) in
  sentinel = mkPoint2f (S754_finite true 8388608 (-23)) (S754_finite true 8388608 (-23)) /\
  exists result,
    postprocess this s infResult = Ok result /\
    length (poses result) = length extracted /\
    forall p pose, extracted !! p = Some pose ->
      exists pose',
        poses result !! p = Some pose' /\
        score pose' = score pose /\
        length (keypoints pose') = length (keypoints pose) /\
        forall k keypoint, keypoints pose !! k = Some keypoint ->
          (keypoint = sentinel -> keypoints pose' !! k = Some sentinel) /\
          (keypoint <> sentinel ->
             keypoints pose' !! k =
               Some (mkPoint2f (F32.mul (px keypoint) scaleX)
                               (F32.mul (py keypoint) scaleY))).
Proof.
  intros Hmaps Hposes Hratio sx sy. split; [reflexivity|].
  eexists. split; [by eapply postprocess_returns|].
  cbn. split; [apply length_fmap|].
  intros p pose Hp. exists (rescale_pose sx sy pose).
  split; [by rewrite list_lookup_fmap, Hp|].
  split; [done|]. split; [apply length_fmap|].
  intros k keypoint Hk. cbn. rewrite list_lookup_fmap, Hk. cbn.
  split.
  - intros ->. by rewrite rescale_sentinel.
  - intros Hne. by rewrite rescale_other.
Qed.

(** ** C6 *)

(** C6.  [postprocess] returns the poses in the order [extractPoses]
    produced them: the result holds as many poses as were extracted, and
    its [i]-th pose is the [i]-th extracted pose (with rescaled
    coordinates), for every [i]. *)
Theorem postprocess_preserves_order
    this (s : Schedule) infResult heatMaps pafs extracted m ratio :
  featureMaps this infResult = Ok (heatMaps, pafs) ->
  extractPoses this s heatMaps pafs = Ok (extracted, m) ->
  Int.div stride upsampleRatio = Ok ratio ->
  exists result,
    postprocess this s infResult = Ok result /\
    frameId result = res_frameId infResult /\
    length (poses result) = length extracted /\
    forall i,
      poses result !! i =
        rescale_pose (F32.mul (F32.of_int ratio) (scaleX (internalModelData infResult)))
                     (F32.mul (F32.of_int ratio) (scaleY (internalModelData infResult)))
          <$> extracted !! i.
Proof.
  intros Hmaps Hposes Hratio.
  eexists. split; [by eapply postprocess_returns|].
  cbn. split; [done|]. split; [apply length_fmap|].
  intros i. apply list_lookup_fmap.
Qed.
End Postprocess.


(* ===================================================================== *)
(** * Model-shape negotiation *)
(* ===================================================================== *)

Lemma not_1xCxHxW_false s channels :
  not_1xCxHxW s channels = false <-> exists h w, s = [1; channels; h; w].
Proof.
  unfold not_1xCxHxW, dim. split.
  - rewrite !orb_false_iff, !negb_false_iff. intros [[Hlen Hn] Hc].
    destruct s as [|n [|c [|h [|w [|]]]]]; try done.
    cbn in Hn, Hc. apply Z.eqb_eq in Hn, Hc. subst. eauto.
  - intros (h & w & ->). cbn. by rewrite Z.eqb_refl.
Qed.

Lemma length_eqb_1 {A : Type} (l : list A) :
  (length l =? 1)%nat = true <-> exists a, l = [a].
Proof.
  rewrite Nat.eqb_eq. split.
  - destruct l as [|a [|]]; try done. eauto.
  - by intros [a ->].
Qed.

Lemma length_eqb_2 {A : Type} (l : list A) :
  (length l =? 2)%nat = true <-> exists a b, l = [a; b].
Proof.
  rewrite Nat.eqb_eq. split.
  - destruct l as [|a [|b [|]]]; try done. eauto.
  - by intros (a & b & ->).
Qed.

Lemma get_any_name_ok port :
  port_names port <> [] -> exists name, get_any_name port = Ok name.
Proof. unfold get_any_name. destruct (port_names port); [done|eauto]. Qed.

Lemma get_any_name_inv port name :
  get_any_name port = Ok name -> port_names port <> [].
Proof. unfold get_any_name. by destruct (port_names port). Qed.

Lemma get_any_name_defined port :
  is_ok (get_any_name port) \/ get_any_name port = Throw LibraryError.
Proof. unfold get_any_name, is_ok. destruct (port_names port); eauto. Qed.

Section Negotiation.
Context `{Header} `{OpenVINO}.

(** When [changeInputSize] has returned, [prepareInputsOutputs] never
    leaves defined behaviour: it returns or throws. *)
Lemma prepare_returns_or_throws this model this1 model1 :
  changeInputSize this model = Ok (this1, model1) ->
  is_ok (prepareInputsOutputs this model) \/ throws (prepareInputsOutputs this model).
Proof.
  intros Hsize. unfold prepareInputsOutputs, is_ok, throws. rewrite Hsize. cbn.
  destruct (inputs model1) as [|input [|]] eqn:Hin; cbn; eauto.
  unfold model_input. rewrite Hin. cbn.
  destruct (get_any_name_defined input) as [[name ->]| ->]; cbn; eauto.
  destruct (not_1xCxHxW (port_shape input) 3); cbn; eauto.
  destruct (outputs model1) as [|heat [|paf [|]]]; cbn; eauto.
  destruct (get_any_name_defined heat) as [[heatName ->]| ->]; cbn; eauto.
  destruct (get_any_name_defined paf) as [[pafName ->]| ->]; cbn; eauto.
  destruct (ppp_build model1); cbn; eauto.
  destruct (not_1xCxHxW (port_shape heat) _); cbn; eauto.
  destruct (not_1xCxHxW (port_shape paf) _); cbn; eauto.
  destruct (_ || _); cbn; eauto.
Qed.

(** [prepareInputsOutputs] returns exactly when the resized model has one
    [1 x 3 x H x W] input, its maps satisfy the shape preconditions, its
    tensors are named and the pre/post-processing build succeeds. *)
Lemma prepare_ok_iff this model this1 model1 :
  changeInputSize this model = Ok (this1, model1) ->
  is_ok (prepareInputsOutputs this model) <->
  input_ok model1 /\ maps_ok model1 /\ named model1 /\ is_Some (ppp_build model1).
Proof.
  intros Hsize. unfold prepareInputsOutputs, is_ok. rewrite Hsize. cbn. split.
  - intros [r Hr].
    apply bind_ok_inv in Hr as ([] & Hone & Hr).
    apply throw_if_ok_inv, negb_false_iff, length_eqb_1 in Hone as [input Hin].
    unfold model_input in Hr. rewrite Hin in Hr. cbn in Hr.
    apply bind_ok_inv in Hr as (name & Hname & Hr).
    apply get_any_name_inv in Hname.
    apply bind_ok_inv in Hr as ([] & Hshape & Hr).
    apply throw_if_ok_inv, not_1xCxHxW_false in Hshape as (h0 & w0 & Hshape).
    apply bind_ok_inv in Hr as ([] & Htwo & Hr).
    apply throw_if_ok_inv, negb_false_iff, length_eqb_2 in Htwo as (heat & paf & Hout).
    rewrite Hout in Hr. cbn in Hr.
    apply bind_ok_inv in Hr as (this2 & Hnames & Hr).
    apply bind_ok_inv in Hnames as (heatName & HheatName & Hnames).
    apply bind_ok_inv in Hnames as (pafName & HpafName & _).
    apply get_any_name_inv in HheatName, HpafName.
    apply bind_ok_inv in Hr as (built & Hbuild & Hr).
    apply bind_ok_inv in Hr as ([] & Hheat & Hr).
    apply throw_if_ok_inv, not_1xCxHxW_false in Hheat as (h & w & Hheat).
    apply bind_ok_inv in Hr as ([] & Hpaf & Hr).
    apply throw_if_ok_inv, not_1xCxHxW_false in Hpaf as (h' & w' & Hpaf).
    apply bind_ok_inv in Hr as ([] & Hsame & _).
    apply throw_if_ok_inv in Hsame.
    rewrite Hheat, Hpaf in Hsame. cbn in Hsame.
    apply orb_false_iff in Hsame as [Hh Hw].
    apply negb_false_iff, Z.eqb_eq in Hh, Hw. subst h' w'.
    split; [by exists input, h0, w0|].
    split; [by exists heat, paf, h, w|].
    split; [unfold named; rewrite Hin, Hout; by repeat constructor|].
    destruct (ppp_build model1); [by eexists|done].
  - intros ((input & h0 & w0 & Hin & Hshape) &
            (heat & paf & h & w & Hout & Hheat & Hpaf) & Hnamed & built & Hbuild).
    unfold named in Hnamed. rewrite Hin, Hout in Hnamed. cbn in Hnamed.
    apply Forall_cons in Hnamed as [Hn0 Hnamed].
    apply Forall_cons in Hnamed as [Hn1 Hnamed].
    apply Forall_cons in Hnamed as [Hn2 _].
    apply get_any_name_ok in Hn0 as [name Hn0], Hn1 as [heatName Hn1],
      Hn2 as [pafName Hn2].
    unfold model_input. rewrite Hin, Hout. cbn.
    rewrite Hn0, Hn1, Hn2, Hbuild. cbn.
    rewrite Hshape, Hheat, Hpaf. cbn.
    unfold not_1xCxHxW, dim. cbn. rewrite !Z.eqb_refl. cbn. eauto.
Qed.

Lemma maps_ok_agree model1 : maps_ok model1 -> ~ maps_disagree model1.
Proof.
  intros (heat & paf & h & w & Hout & Hheat & Hpaf) (heat' & paf' & Hfst & Hsnd & Hne).
  rewrite Hout in Hfst, Hsnd. cbn in Hfst, Hsnd.
  injection Hfst as <-. injection Hsnd as <-.
  by rewrite Hheat, Hpaf in Hne.
Qed.

Lemma maps_ok_counts model1 :
  0 <= keypointsNumber -> 2 * (keypointsNumber + 1) < Size.modulus ->
  maps_ok model1 -> channel_counts_ok model1.
Proof.
  intros Hk Hsmall (heat & paf & h & w & Hout & Hheat & Hpaf).
  exists heat, paf. rewrite Hheat, Hpaf. cbn.
  unfold Size.add, Size.mul, Size.wrap.
  rewrite (Z.mod_small (keypointsNumber + 1)) by (unfold Size.modulus in *; lia).
  by rewrite Z.mod_small by (unfold Size.modulus in *; lia).
Qed.

(** ** C2 *)

(** C2.  When the heat-map output and the PAF output of the model, as
    [prepareInputsOutputs] reads them after [changeInputSize], differ in
    height or in width, [prepareInputsOutputs] throws. *)
Theorem prepareInputsOutputs_rejects_mismatch this model this1 model1 :
  changeInputSize this model = Ok (this1, model1) ->
  maps_disagree model1 ->
  throws (prepareInputsOutputs this model).
Proof.
  intros Hsize Hdis.
  destruct (prepare_returns_or_throws _ _ _ _ Hsize) as [Hok|Hthrow]; [|done].
  apply (prepare_ok_iff _ _ _ _ Hsize) in Hok as (_ & Hmaps & _).
  by apply maps_ok_agree in Hmaps.
Qed.

(** ** C7 *)

(** C7.  With [K = keypointsNumber] such that [2 * (K + 1)] fits a
    [size_t]: [prepareInputsOutputs] returns only if the resized model has
    exactly two outputs, [K + 1] heat-map channels and [2 * (K + 1)] PAF
    channels; a model that violates one of the counts makes it throw. *)
Theorem prepareInputsOutputs_channel_counts this model this1 model1 :
  0 <= keypointsNumber -> 2 * (keypointsNumber + 1) < Size.modulus ->
  changeInputSize this model = Ok (this1, model1) ->
  (is_ok (prepareInputsOutputs this model) -> channel_counts_ok model1) /\
  (~ channel_counts_ok model1 -> throws (prepareInputsOutputs this model)).
Proof.
  intros Hk Hsmall Hsize.
  assert (Hcounts : is_ok (prepareInputsOutputs this model) -> channel_counts_ok model1).
  { intros Hok. apply (prepare_ok_iff _ _ _ _ Hsize) in Hok as (_ & Hmaps & _).
    by apply maps_ok_counts. }
  split; [done|]. intros Hbad.
  destruct (prepare_returns_or_throws _ _ _ _ Hsize) as [Hok|Hthrow]; [|done].
  by apply Hcounts in Hok.
Qed.
End Negotiation.

Section FatalConditions.
Context `{Header} `{OpenVINO} `{Imgproc}.

(** With map shapes that satisfy the preconditions, what is left to
    throw in [prepareInputsOutputs] is the input checks and the library. *)
Lemma prepare_throws_despite_maps this model this1 model1 e :
  changeInputSize this model = Ok (this1, model1) ->
  maps_ok model1 ->
  prepareInputsOutputs this model = Throw e ->
  e = OneInputExpected \/ e = InputShapeExpected \/ e = LibraryError.
Proof.
  intros Hsize (heat & paf & h & w & Hout & Hheat & Hpaf).
  unfold prepareInputsOutputs. rewrite Hsize. cbn.
  destruct (inputs model1) as [|input [|]] eqn:Hin; cbn;
    try (intros [= <-]; by auto).
  unfold model_input. rewrite Hin. cbn.
  destruct (get_any_name_defined input) as [[name ->]| ->]; cbn;
    try (intros [= <-]; by auto).
  destruct (not_1xCxHxW (port_shape input) 3); cbn;
    try (intros [= <-]; by auto).
  rewrite Hout. cbn.
  destruct (get_any_name_defined heat) as [[heatName ->]| ->]; cbn;
    try (intros [= <-]; by auto).
  destruct (get_any_name_defined paf) as [[pafName ->]| ->]; cbn;
    try (intros [= <-]; by auto).
  destruct (ppp_build model1); cbn; try (intros [= <-]; by auto).
  rewrite Hheat, Hpaf. unfold not_1xCxHxW, dim. cbn.
  rewrite !Z.eqb_refl. cbn. done.
Qed.

(** The wrapper's own exception in [preprocess] is the one of line 121. *)
Lemma preprocess_aspect_ratio_iff this image request :
  preprocess this image request = Throw AspectRatioMismatch <->
  exists paddedImage roi,
    resizeImageExt image (width (inputLayerSize this)) (height (inputLayerSize this))
      = Some (paddedImage, roi)
    /\ width (inputLayerSize this) < rect_width roi.
Proof.
  unfold preprocess.
  destruct (resizeImageExt _ _ _) as [[paddedImage roi]|]; cbn.
  - destruct (Z.ltb_spec (width (inputLayerSize this)) (rect_width roi)) as [Hlt|Hge]; cbn.
    + split; [intros _; by exists paddedImage, roi|done].
    + split.
      * unfold Int.sub, Int.checked. destruct (Int.in_range _); cbn; [|done].
        destruct (wrapMat2Tensor paddedImage); cbn; [|done].
        by destruct (set_input_tensor request _).
      * intros (p & r & [= <- <-] & Hlt). lia.
  - split; [done|]. by intros (? & ? & ? & _).
Qed.

Lemma preprocess_throws this image request e :
  preprocess this image request = Throw e ->
  e = AspectRatioMismatch \/ e = LibraryError.
Proof.
  unfold preprocess.
  destruct (resizeImageExt _ _ _) as [[paddedImage roi]|]; cbn;
    [|intros [= <-]; by right].
  destruct (_ <? _); cbn; [intros [= <-]; by left|].
  unfold Int.sub, Int.checked. destruct (Int.in_range _); cbn; [|done].
  destruct (wrapMat2Tensor paddedImage); cbn; [|intros [= <-]; by right].
  destruct (set_input_tensor request _); cbn; [done|intros [= <-]; by right].
Qed.

(** ** C3 *)

(** C3, amended.  [prepareInputsOutputs] returns exactly when
    [changeInputSize] returns, the resized model has one [1 x 3 x H x W]
    input, its maps satisfy the shape preconditions, its tensors are
    named and the pre/post-processing build succeeds; with map shapes
    that satisfy the preconditions it still throws for the number of
    inputs, the shape of the input or a failing library call.
    [preprocess] throws its own exception exactly when [resizeImageExt]
    reports a region wider than the network input, and otherwise only
    what a library call throws. *)
Theorem fatal_conditions :
  (forall this model,
     is_ok (prepareInputsOutputs this model) <->
     exists this1 model1,
       changeInputSize this model = Ok (this1, model1) /\
       input_ok model1 /\ maps_ok model1 /\ named model1 /\
       is_Some (ppp_build model1)) /\
  (forall this model this1 model1 e,
     changeInputSize this model = Ok (this1, model1) ->
     maps_ok model1 ->
     prepareInputsOutputs this model = Throw e ->
     e = OneInputExpected \/ e = InputShapeExpected \/ e = LibraryError) /\
  (forall this image request,
     preprocess this image request = Throw AspectRatioMismatch <->
     exists paddedImage roi,
       resizeImageExt image (width (inputLayerSize this)) (height (inputLayerSize this))
         = Some (paddedImage, roi)
       /\ width (inputLayerSize this) < rect_width roi) /\
  (forall this image request e,
     preprocess this image request = Throw e ->
     e = AspectRatioMismatch \/ e = LibraryError).
Proof.
  split; [|split; [|split]].
  - intros this model. split.
    + intros Hok. pose proof Hok as [r Hr].
      unfold prepareInputsOutputs in Hr.
      apply bind_ok_inv in Hr as ([this1 model1] & Hsize & _).
      exists this1, model1. split; [done|].
      by apply (prepare_ok_iff _ _ _ _ Hsize).
    + intros (this1 & model1 & Hsize & Hrest).
      by apply (prepare_ok_iff _ _ _ _ Hsize).
  - apply prepare_throws_despite_maps.
  - apply preprocess_aspect_ratio_iff.
  - apply preprocess_throws.
Qed.
End FatalConditions.

(** C3 as stated fails: the network fed single-channel images has maps
    that satisfy every shape precondition, before and after the resize,
    and [prepareInputsOutputs] throws on it, at the check of the input
    (line 59). *)
Lemma gray_model_is_rejected :
  @maps_ok Demo.header Demo.gray_model /\
  (exists this1 model1,
     @changeInputSize Demo.header Demo.openvino Demo.this Demo.gray_model
       = Ok (this1, model1) /\
     @maps_ok Demo.header model1) /\
  @prepareInputsOutputs Demo.header Demo.openvino Demo.this Demo.gray_model
    = Throw InputShapeExpected.
Proof.
  split; [|split].
  - by exists (mkPort ["heatmaps"] [1; 19; 32; 57]), (mkPort ["pafs"] [1; 38; 32; 57]), 32, 57.
  - eexists _, _. split; [vm_compute; reflexivity|].
    by exists (mkPort ["heatmaps"] [1; 19; 32; 57]), (mkPort ["pafs"] [1; 38; 32; 57]), 32, 57.
  - by vm_compute.
Qed.

(* ===================================================================== *)
(** * The input size *)
(* ===================================================================== *)

Section InputSize.
Context `{Header} `{OpenVINO}.

(** [(x + stride - 1) / stride * stride] rounds a non-negative [x] up to
    a multiple of a positive stride. *)
Lemma round_up_to_stride_spec x :
  0 < stride -> 0 <= x -> x + stride <= Int.max_signed ->
  exists r, round_up_to_stride x = Ok r /\ least_multiple_ge stride x r /\
            0 <= r <= Int.max_signed.
Proof.
  intros Hs Hx Hmax.
  assert (Hlo : Int.min_signed = -2147483648) by reflexivity.
  assert (Hne : stride <> 0) by lia.
  pose proof (Z.div_mod (x + stride - 1) stride Hne) as Hdiv.
  pose proof (Z.mod_pos_bound (x + stride - 1) stride Hs) as Hrem.
  set (q := (x + stride - 1) / stride) in *.
  assert (Hq : 0 <= q) by (apply Z.div_pos; lia).
  rewrite (Z.mul_comm stride q) in Hdiv.
  assert (Hqs : q <= q * stride) by nia.
  exists (q * stride). split; [|split].
  - unfold round_up_to_stride, Int.add, Int.sub, Int.div, Int.mul.
    rewrite (int_checked_ok (x + stride)) by lia. cbn.
    rewrite (int_checked_ok (x + stride - 1)) by lia. cbn.
    destruct (Z.eqb_spec stride 0) as [?|_]; [lia|].
    rewrite Z.quot_div_nonneg by lia. fold q.
    rewrite (int_checked_ok q) by lia. cbn.
    apply int_checked_ok. lia.
  - split; [by exists q|]. split; [lia|].
    intros r' [k ->] Hk.
    assert (q - 1 < k) by nia. nia.
  - lia.
Qed.

(** ** C10 *)

(** C10, amended.  For a positive stride and a model with one
    four-dimensional input, let [t] be the target size after a zero has
    been replaced by the input height of the model.  When [t] and the
    rounded product [w0] of [t] and the aspect ratio are non-negative and
    leave room for the stride in an [int], [changeInputSize] asks the
    network for the input [1 x C x H x W] and records [(W, H)], where [H]
    is the smallest multiple of the stride that is at least [t] and [W]
    the smallest that is at least [w0]; [H] is positive when [t] is, and
    [W] when [w0] is. *)
Theorem changeInputSize_sizes this model input name names n c h w inputWidth :
  0 < stride ->
  inputs model = [input] ->
  port_names input = name :: names ->
  port_shape input = [n; c; h; w] ->
  let t := if targetSize this =? 0 then Size.to_int h else targetSize this in
  0 <= t -> t + stride <= Int.max_signed ->
  scaled_width t (aspectRatio this) = Ok inputWidth ->
  0 <= inputWidth -> inputWidth + stride <= Int.max_signed ->
  exists H W,
    least_multiple_ge stride t H /\
    least_multiple_ge stride inputWidth W /\
    (0 < t -> 0 < H) /\ (0 < inputWidth -> 0 < W) /\
    changeInputSize this model =
      (model1 ← lib (reshape model name [1; c; Size.of_int H; Size.of_int W]);
       Ok (set_inputLayerSize (set_targetSize this t) (mkSize W H), model1)).
Proof.
  intros Hs Hin Hname Hshape t Ht Htmax Hwidth Hw Hwmax.
  destruct (round_up_to_stride_spec t Hs Ht Htmax) as (Hh & HrunH & HleastH & HrangeH).
  destruct (round_up_to_stride_spec inputWidth Hs Hw Hwmax)
    as (Ww & HrunW & HleastW & HrangeW).
  assert (Hlo : Int.min_signed = -2147483648) by reflexivity.
  exists Hh, Ww. split; [done|]. split; [done|].
  split; [destruct HleastH as (_ & ? & _); lia|].
  split; [destruct HleastW as (_ & ? & _); lia|].
  unfold changeInputSize, model_input, get_any_name. rewrite Hin. cbn.
  rewrite Hname. cbn. rewrite Hshape.
  assert (Hreplace :
    (if targetSize this =? 0
     then d ← vec_at [n; c; h; w] 2; Ok (set_targetSize this (Size.to_int d))
     else Ok this) = Ok (set_targetSize this t)).
  { unfold t. destruct (Z.eqb_spec (targetSize this) 0) as [Hz|Hnz]; [done|].
    by destruct this. }
  rewrite Hreplace. cbn. rewrite HrunH. cbn. rewrite Hwidth. cbn.
  rewrite HrunW. cbn.
  by rewrite !size_int_roundtrip by lia.
Qed.
End InputSize.

(** C10 as stated fails.  With a zero target size and a frame 1024 times
    taller than wide the target becomes the model's 256 rows and the
    width [round(256 / 1024) = 0]: the network is resized to 256 x 0.
    With the target size -9 the height is [(-9 + 8 - 1) / 8 * 8 = 0],
    while -8 is a smaller multiple of 8 that is at least -9. *)
Lemma changeInputSize_degenerate_sizes :
  (targetSize Demo.this_tall = 0 /\
   exists this1 model1,
     @changeInputSize Demo.header Demo.openvino Demo.this_tall Demo.model
       = Ok (this1, model1) /\
     inputLayerSize this1 = mkSize 0 256 /\
     port_shape <$> inputs model1 = [[1; 3; 256; 0]]) /\
  (targetSize Demo.this_negative = -9 /\
   exists this1 model1,
     @changeInputSize Demo.header Demo.openvino Demo.this_negative Demo.model
       = Ok (this1, model1) /\
     height (inputLayerSize this1) = 0 /\
     ~ least_multiple_ge 8 (-9) (height (inputLayerSize this1))).
Proof.
  split.
  - split; [done|]. eexists _, _. split; [vm_compute; reflexivity|]. done.
  - split; [done|]. eexists _, _. split; [vm_compute; reflexivity|].
    split; [done|]. cbn. intros (_ & _ & Hleast).
    specialize (Hleast (-8) ltac:(by exists (-1)) ltac:(lia)). lia.
Qed.

(* ===================================================================== *)
(** * The theorems at work on the concrete configuration *)
(* ===================================================================== *)

Lemma backwards_schedules : schedules 3 Demo.backwards.
Proof. apply (Permutation_rev [2; 1; 0]%nat). Defined.

Lemma striped_schedules : schedules 3 Demo.striped.
Proof. apply (Permutation_app_comm [1; 2]%nat [0%nat]). Defined.


(** The heat maps of the inconsistent network still disagree after the
    resize, and it is rejected. *)
Lemma skewed_model_is_rejected :
  throws (@prepareInputsOutputs Demo.header Demo.openvino Demo.this Demo.skewed_model).
Proof.
  eapply (@prepareInputsOutputs_rejects_mismatch Demo.header Demo.openvino).
  - vm_compute. reflexivity.
  - eexists _, _. split; [reflexivity|]. split; [reflexivity|].
    vm_compute. intros [=].
Defined.

(** The accepted network has two outputs of 19 and 38 channels. *)
Lemma demo_model_channel_counts :
  exists this1 model1,
    @changeInputSize Demo.header Demo.openvino Demo.this Demo.model = Ok (this1, model1) /\
    @channel_counts_ok Demo.header model1.
Proof.
  eexists _, _. split; [vm_compute; reflexivity|].
  edestruct (@prepareInputsOutputs_channel_counts Demo.header Demo.openvino
               Demo.this Demo.model) as [Hcounts _].
  - vm_compute. discriminate.
  - vm_compute. reflexivity.
  - vm_compute. reflexivity.
  - apply Hcounts. eexists. vm_compute. reflexivity.
Defined.

(** Two orders of the parallel loop, one outcome. *)
Lemma extractPoses_deterministic_demo :
  @extractPoses Demo.header Demo.decoder Demo.ready Demo.backwards Demo.heatMaps Demo.pafs
  = @extractPoses Demo.header Demo.decoder Demo.this Demo.striped Demo.heatMaps Demo.pafs.
Proof.
  apply (@extractPoses_deterministic Demo.header Demo.decoder).
  - reflexivity.
  - exact backwards_schedules.
  - exact striped_schedules.
Defined.

Lemma extractPoses_preserves_maps_demo :
  exists poses m,
    @extractPoses Demo.header Demo.decoder Demo.ready Demo.backwards Demo.heatMaps Demo.pafs
      = Ok (poses, m) /\
    mem_heatMaps m = Demo.heatMaps /\ mem_pafs m = Demo.pafs.
Proof.
  eexists _, _. split; [vm_compute; reflexivity|].
  eapply (@extractPoses_preserves_maps Demo.header Demo.decoder Demo.ready Demo.backwards).
  vm_compute. reflexivity.
Defined.

(** The first pose that comes back has its keypoint [(1, 2)] moved to
    [(3, 5)], the factors being [8 / 4 * 1.5] and [8 / 4 * 1.25], and its
    absent keypoint still at [(-1, -1)]. *)
Lemma postprocess_rescales_keypoints_demo :
  exists result pose',
    @postprocess Demo.small_header Demo.decoder Demo.imgproc
      Demo.ready (Demo.sequential 2) Demo.infResult = Ok result /\
    length (poses result) = 2%nat /\
    poses result !! 0%nat = Some pose' /\
    keypoints pose' !! 0%nat = Some (mkPoint2f (F32.of_int 3) (F32.of_int 5)) /\
    keypoints pose' !! 1%nat = Some sentinel /\
    length (keypoints pose') = 2%nat.
Proof.
  edestruct (@postprocess_rescales_keypoints Demo.small_header Demo.decoder Demo.imgproc
               Demo.ready (Demo.sequential 2) Demo.infResult)
    as (_ & result & Hrun & Hlen & Hposes);
    [vm_compute; reflexivity ..|].
  destruct (Hposes 0%nat _ eq_refl) as (pose' & Hpose' & _ & Hcount & Hkeypoints).
  exists result, pose'. split; [exact Hrun|]. split; [exact Hlen|].
  split; [exact Hpose'|]. split; [|split; [|exact Hcount]].
  - destruct (Hkeypoints 0%nat _ eq_refl) as [_ Hscaled].
    rewrite Hscaled; [vm_compute; reflexivity|vm_compute; intros [=]].
  - destruct (Hkeypoints 1%nat _ eq_refl) as [Hkept _].
    apply Hkept. vm_compute. reflexivity.
Defined.

(** A decoder that reports its arguments sees the distance 3 at every
    heat map, next to the confidence threshold 0.1 of the object, and the
    thresholds 0.05, 0.8 and 0.2 at the grouping. *)
Lemma thresholds_are_the_defaults_demo :
  exists m,
    @extractPoses Demo.header Demo.recorder Demo.this Demo.backwards
      Demo.heatMaps Demo.pafs
    = Ok ([mkPose (replicate 3 (mkPoint2f (F32.of_int 3) (F32.lit 1 10))) (F32.lit 5 100);
           mkPose [] (F32.lit 8 10);
           mkPose [] (F32.lit 2 10)], m).
Proof.
  destruct (@thresholds_are_the_defaults Demo.header Demo.recorder Demo.this
              Demo.backwards Demo.heatMaps Demo.pafs)
    as (_ & _ & _ & _ & _ & Hrun).
  - apply (Permutation_rev [2; 1; 0]%nat).
  - rewrite Hrun. eexists. vm_compute. reflexivity.
Defined.

Lemma postprocess_preserves_order_demo :
  exists result,
    @postprocess Demo.small_header Demo.decoder Demo.imgproc
      Demo.ready (Demo.sequential 2) Demo.infResult = Ok result /\
    frameId result = 7 /\
    score <$> poses result = [F32.lit 5 10; F32.lit 9 10].
Proof.
  edestruct (@postprocess_preserves_order Demo.small_header Demo.decoder Demo.imgproc
               Demo.ready (Demo.sequential 2) Demo.infResult)
    as (result & Hrun & Hid & Hlen & Hith);
    [vm_compute; reflexivity ..|].
  exists result. split; [exact Hrun|]. split; [exact Hid|].
  apply list_eq. intros i. rewrite list_lookup_fmap, Hith.
  destruct i as [|[|[|i]]]; reflexivity.
Defined.

(** The demo network is resized to 256 x 456. *)
Lemma changeInputSize_sizes_demo :
  exists H W,
    least_multiple_ge 8 256 H /\
    least_multiple_ge 8 456 W /\
    @changeInputSize Demo.header Demo.openvino Demo.this Demo.model =
      (model1 ← lib (@reshape Demo.openvino Demo.model "data"
                       [1; 3; Size.of_int H; Size.of_int W]);
       Ok (set_inputLayerSize (set_targetSize Demo.this 256) (mkSize W H), model1)).
Proof.
  edestruct (@changeInputSize_sizes Demo.header Demo.openvino Demo.this Demo.model
               (mkPort ["data"] [1; 3; 256; 456]) "data" [] 1 3 256 456 456)
    as (Hh & Ww & HleastH & HleastW & _ & _ & Hrun).
  - reflexivity.
  - reflexivity.
  - reflexivity.
  - reflexivity.
  - vm_compute. discriminate.
  - vm_compute. discriminate.
  - vm_compute. reflexivity.
  - vm_compute. discriminate.
  - vm_compute. discriminate.
  - exists Hh, Ww. split; [exact HleastH|]. split; [exact HleastW|exact Hrun].
Defined.

(** The accepted network, and what the wrapper remembers of it. *)
Example demo_model_is_accepted :
  exists this1 model1,
    @prepareInputsOutputs Demo.header Demo.openvino Demo.this Demo.model
      = Ok (this1, model1) /\
    targetSize this1 = 256 /\
    inputLayerSize this1 = mkSize 456 256 /\
    inputsNames this1 = ["data"] /\
    outputsNames this1 = ["heatmaps"; "pafs"].
Proof. eexists _, _. split; [vm_compute; reflexivity|]. done. Qed.

Example thin_model_is_rejected :
  @prepareInputsOutputs Demo.header Demo.openvino Demo.this Demo.thin_model
  = Throw PafShapeExpected.
Proof. by vm_compute. Qed.

(** A 640 x 480 frame in a 456 x 256 input: the picture takes 341
    columns of the input, more than a stride short of its width, and the
    warning is logged. *)
Example preprocess_demo :
  exists scale request,
    @preprocess Demo.header Demo.openvino Demo.imgproc Demo.ready Demo.image
      (mkRequest None) = Ok (scale, request, true) /\
    inputImgWidth scale = 456 /\ inputImgHeight scale = 256 /\
    scaleX scale = F32.div (F32.of_int 640) (F32.of_int 341).
Proof. eexists _, _. split; [vm_compute; reflexivity|]. done. Qed.

(** The guard of line 120 fires when the helper reports a region wider
    than the input. *)
Example preprocess_wide_region :
  @preprocess Demo.header Demo.openvino Demo.imgproc_wide Demo.ready Demo.image
    (mkRequest None) = Throw AspectRatioMismatch.
Proof. by vm_compute. Qed.

(* ===================================================================== *)
(** * Further properties of the driver *)
(* ===================================================================== *)

Lemma peaks_before_cons peaks (table : PeakTable) i :
  peaks_before (peaks :: table) (S i) = (length peaks + peaks_before table i)%nat.
Proof. reflexivity. Qed.

(** A table whose type [i] is numbered from [start] plus the number of
    candidates of the types below carries, read type after type, the ids
    [start, start + 1, ...]. *)
Lemma concat_numbered (table : PeakTable) : forall start,
  (forall i peaks, table !! i = Some peaks ->
     numbered_from (start + peaks_before table i) peaks) ->
  peak_id <$> concat table = Z.of_nat <$> seq start (total_peaks table).
Proof.
  induction table as [|peaks table IH]; intros start Hnum; [done|].
  cbn. rewrite fmap_app.
  change (total_peaks (peaks :: table)) with (length peaks + total_peaks table)%nat.
  rewrite seq_app, fmap_app. f_equal.
  - specialize (Hnum 0%nat peaks eq_refl). unfold numbered_from in Hnum.
    by rewrite Nat.add_0_r in Hnum.
  - apply IH. intros i l Hi. specialize (Hnum (S i) l Hi).
    rewrite peaks_before_cons in Hnum.
    by replace (start + length peaks + peaks_before table i)%nat
      with (start + (length peaks + peaks_before table i))%nat by lia.
Qed.

(** X1.  After the id assignment of [extractPoses] the ids are the
    positions in the table read type after type: the candidates carry
    [0, 1, ..., N-1] in that order, so no id occurs twice.  As for C1 the
    candidates of every type are numbered locally and their total count
    fits an [int]. *)
Theorem assignGlobalIds_ids_are_positions (table : PeakTable) :
  Forall locally_numbered table ->
  Z.of_nat (total_peaks table) <= Int.max_signed ->
  exists table',
    assignGlobalIds (length table) table = Ok table' /\
    peak_id <$> concat table' = Z.of_nat <$> seq 0 (total_peaks table) /\
    NoDup (peak_id <$> concat table').
Proof.
  intros Hlocal Htotal.
  destruct (assignGlobalIds_shift table Hlocal Htotal) as (table' & Hrun & Hspec).
  assert (Hlens : length <$> table' = length <$> table).
  { apply list_eq. intros i. rewrite !list_lookup_fmap, Hspec.
    destruct (table !! i); [|done]. cbn. by rewrite length_fmap. }
  assert (Hids : peak_id <$> concat table' = Z.of_nat <$> seq 0 (total_peaks table)).
  { rewrite <- (total_peaks_lengths table table' Hlens).
    apply concat_numbered. intros i peaks' Hi. rewrite Hspec in Hi.
    destruct (table !! i) as [peaks|] eqn:Hlook; [|done].
    injection Hi as <-. cbn.
    rewrite (peaks_before_lengths table table' i Hlens).
    apply shift_numbered_from. by eapply (proj1 (Forall_lookup _ _) Hlocal). }
  exists table'. split; [done|]. split; [done|].
  rewrite Hids. apply NoDup_fmap_2; [|apply NoDup_seq].
  intros a b. lia.
Qed.

Lemma assignGlobalIds_ids_are_positions_demo :
  exists table',
    assignGlobalIds 3 Demo.table = Ok table' /\
    peak_id <$> concat table' = [0; 1; 2; 3; 4; 5] /\
    NoDup (peak_id <$> concat table').
Proof.
  apply (assignGlobalIds_ids_are_positions Demo.table).
  - repeat constructor.
  - vm_compute. discriminate.
Defined.

Lemma add_to_ids_inv peaksBefore peaks peaks' :
  add_to_ids peaksBefore peaks = Ok peaks' ->
  peaks' = shift_id peaksBefore <$> peaks.
Proof.
  revert peaks'. induction peaks as [|p peaks IH]; intros peaks' Hrun.
  - by injection Hrun as <-.
  - cbn in Hrun.
    apply bind_ok_inv in Hrun as (id & Hid & Hrun).
    apply bind_ok_inv in Hrun as (rest & Hrest & Hrun).
    injection Hrun as <-. apply int_checked_inv in Hid as [-> _].
    cbn. f_equal. by apply IH.
Qed.

(** The loop of lines 215-220 read backwards: when it returns, every
    type in [[k, k + m)] has been shifted by the number of candidates of
    the types below it. *)
Lemma assign_ids_loop_inv m : forall k peaksBefore (table table' : PeakTable),
  (1 <= k)%nat ->
  peaksBefore = Z.of_nat (peaks_before table (k - 1)) ->
  Forall (fun peaks => Z.of_nat (length peaks) <= Int.max_signed) table ->
  assign_ids_loop (seq k m) peaksBefore table = Ok table' ->
  forall i, table' !! i =
    if decide (k <= i < k + m)%nat
    then fmap (shift_id (Z.of_nat (peaks_before table i))) <$> table !! i
    else table !! i.
Proof.
  induction m as [|m IH]; intros k pb table table' Hk Hpb Hfit Hrun i.
  - injection Hrun as <-. case_decide; [lia|done].
  - cbn [seq assign_ids_loop] in Hrun.
    apply bind_ok_inv in Hrun as (prev & Hprev & Hrun).
    apply bind_ok_inv in Hrun as (pb' & Hadd & Hrun).
    apply bind_ok_inv in Hrun as (cur & Hcur & Hrun).
    apply bind_ok_inv in Hrun as (cur' & Hshift & Hrun).
    apply vec_at_inv in Hprev, Hcur.
    apply add_to_ids_inv in Hshift. subst cur'.
    apply int_checked_inv in Hadd as [-> _].
    assert (Hmin : Int.min_signed = -2147483648) by reflexivity.
    pose proof (proj1 (Forall_lookup _ _) Hfit _ _ Hprev) as Hfits. cbn in Hfits.
    unfold Size.to_int in Hrun. rewrite int_wrap_id in Hrun by lia.
    assert (Hbefore : pb + Z.of_nat (length prev) = Z.of_nat (peaks_before table k)).
    { pose proof (peaks_before_S _ _ _ Hprev) as HS.
      replace (S (k - 1)) with k in HS by lia. lia. }
    rewrite Hbefore in Hrun.
    set (pb' := Z.of_nat (peaks_before table k)) in *.
    assert (Hlens : length <$> <[k := shift_id pb' <$> cur]> table = length <$> table).
    { eapply insert_same_lengths; [done|apply length_fmap]. }
    rewrite (IH (S k) pb' (<[k := shift_id pb' <$> cur]> table) table' ltac:(lia));
      [| | |exact Hrun].
    + destruct (decide (i = k)) as [->|Hne].
      * rewrite list_lookup_insert_eq by (apply lookup_lt_Some in Hcur; lia).
        rewrite decide_False by lia. rewrite decide_True by lia.
        by rewrite Hcur.
      * rewrite list_lookup_insert_ne by done.
        rewrite (peaks_before_lengths table _ i Hlens).
        repeat case_decide; (done || lia).
    + replace (S k - 1)%nat with k by lia. unfold pb'. f_equal. symmetry.
      by apply peaks_before_lengths.
    + apply Forall_lookup_2. intros j l Hj.
      destruct (decide (j = k)) as [->|Hne].
      * rewrite list_lookup_insert_eq in Hj by (apply lookup_lt_Some in Hcur; lia).
        injection Hj as <-. rewrite length_fmap.
        apply (proj1 (Forall_lookup _ _) Hfit _ _ Hcur).
      * rewrite list_lookup_insert_ne in Hj by done.
        apply (proj1 (Forall_lookup _ _) Hfit _ _ Hj).
Qed.

(** X2.  The id assignment does not depend on how the candidates were
    numbered before: whenever it returns, on a table whose per-type
    counts fit an [int], every candidate of type [i] has had the number of
    candidates of the types below [i] added to its id, and nothing else
    has changed; type 0 keeps its ids. *)
Theorem assignGlobalIds_adds_counts (table table' : PeakTable) :
  Forall (fun peaks => Z.of_nat (length peaks) <= Int.max_signed) table ->
  assignGlobalIds (length table) table = Ok table' ->
  length table' = length table /\
  table' !! 0%nat = table !! 0%nat /\
  forall i peaks, table !! i = Some peaks ->
    exists peaks',
      table' !! i = Some peaks' /\
      peak_id <$> peaks' =
        (fun p => peak_id p + Z.of_nat (peaks_before table i)) <$> peaks /\
      same_detections peaks peaks'.
Proof.
  intros Hfit Hrun. unfold assignGlobalIds in Hrun.
  pose proof (assign_ids_loop_inv _ 1 0 table table' ltac:(lia) eq_refl Hfit Hrun)
    as Hspec.
  split; [|split].
  - apply Nat.le_antisymm; apply Nat.nlt_ge; intros Hlt.
    + destruct (lookup_lt_is_Some_2 table' (length table)) as [x Hx]; [lia|].
      rewrite Hspec, (lookup_ge_None_2 table) in Hx by lia.
      by case_decide.
    + destruct (lookup_lt_is_Some_2 table (length table')) as [x Hx]; [lia|].
      specialize (Hspec (length table')).
      rewrite Hx, (lookup_ge_None_2 table') in Hspec by lia.
      by case_decide.
  - rewrite Hspec. by rewrite decide_False by lia.
  - intros i peaks Hi.
    exists (shift_id (Z.of_nat (peaks_before table i)) <$> peaks).
    split; [|split].
    + rewrite Hspec, Hi. case_decide as Hin; [done|].
      apply lookup_lt_Some in Hi. assert (i = 0)%nat as -> by lia.
      cbn. f_equal. rewrite <- (list_fmap_id peaks) at 1.
      apply list_fmap_ext. intros _ p _. symmetry. apply shift_id_0.
    + rewrite <- list_fmap_compose. by apply list_fmap_ext.
    + apply shift_same_detections.
Qed.

Lemma assignGlobalIds_adds_counts_demo :
  exists table' : list (list Peak),
    assignGlobalIds 2 Demo.unnumbered = Ok table' /\
    length table' = 2%nat /\
    table' !! 0%nat = Some [Demo.peak 7] /\
    (fun peaks : list Peak => peak_id <$> peaks) <$> table' = [[7]; [8; 10]].
Proof.
  eexists. split; [vm_compute; reflexivity|].
  edestruct (assignGlobalIds_adds_counts Demo.unnumbered) as (Hlen & Hfirst & _).
  - repeat constructor; vm_compute; discriminate.
  - vm_compute. reflexivity.
  - split; [exact Hlen|]. split; [exact Hfirst|reflexivity].
Defined.

(* ===================================================================== *)
(** * Further properties of the shape negotiation *)
(* ===================================================================== *)

Lemma round_up_to_stride_never_throws `{Header} x e : round_up_to_stride x <> Throw e.
Proof.
  unfold round_up_to_stride, Int.add, Int.sub, Int.div, Int.mul, Int.checked.
  destruct (Int.in_range (x + stride)); [|done]. cbn.
  destruct (Int.in_range (x + stride - 1)); [|done]. cbn.
  destruct (stride =? 0); [done|].
  destruct (Int.in_range (Z.quot _ _)); [|done]. cbn.
  by destruct (Int.in_range _).
Qed.

(** Whatever the sign of [x], a returned [(x + stride - 1) / stride *
    stride] is a multiple of a positive stride that is not below [x]. *)
Lemma round_up_to_stride_inv `{Header} x r :
  0 < stride -> round_up_to_stride x = Ok r ->
  (exists k, r = k * stride) /\ x <= r /\ r <= Z.max (x + stride - 1) 0 /\
  Int.min_signed <= r <= Int.max_signed.
Proof.
  intros Hs Hrun. unfold round_up_to_stride in Hrun.
  apply bind_ok_inv in Hrun as (a & Ha & Hrun).
  apply bind_ok_inv in Hrun as (b & Hb & Hrun).
  apply bind_ok_inv in Hrun as (q & Hq & Hrun).
  apply int_checked_inv in Ha as [-> _], Hb as [-> _].
  unfold Int.div in Hq. destruct (stride =? 0); [done|].
  apply int_checked_inv in Hq as [-> _], Hrun as [-> Hrange].
  split; [by eexists|]. split; [|split; [|done]].
  - pose proof (Z.quot_rem' (x + stride - 1) stride) as Hqr.
    destruct (Z_lt_le_dec (x + stride - 1) 0) as [Hneg|Hpos].
    + assert (Hle : x + stride - 1 <= 0) by lia.
      pose proof (Z.rem_bound_pos_neg (x + stride - 1) stride Hs Hle). lia.
    + pose proof (Z.rem_bound_pos (x + stride - 1) stride Hpos Hs). lia.
  - pose proof (Z.quot_rem' (x + stride - 1) stride) as Hqr.
    destruct (Z_lt_le_dec (x + stride - 1) 0) as [Hneg|Hpos].
    + assert (Hle : x + stride - 1 <= 0) by lia.
      pose proof (Z.rem_bound_pos_neg (x + stride - 1) stride Hs Hle).
      assert (Z.quot (x + stride - 1) stride <= 0) by nia. nia.
    + pose proof (Z.rem_bound_pos (x + stride - 1) stride Hpos Hs). lia.
Qed.

Lemma vec_set_inv {A : Type} (v v' : list A) i a :
  vec_set v i a = Ok v' -> v' = <[i := a]> v /\ (i < length v)%nat.
Proof.
  unfold vec_set. destruct (v !! i) eqn:Hi; [|done].
  intros [= <-]. split; [done|]. by eapply lookup_lt_Some.
Qed.

Lemma bind_throw_inv {A B : Type} (r : result A) (k : A -> result B) e :
  r ≫= k = Throw e -> r = Throw e \/ exists a, r = Ok a /\ k a = Throw e.
Proof. destruct r as [a|e'|]; [eauto|intros [= ->]; by left|done]. Qed.

Lemma vec_at_never_throws {A : Type} (v : list A) i e : vec_at v i <> Throw e.
Proof. unfold vec_at. by destruct (v !! i). Qed.

Lemma vec_set_never_throws {A : Type} (v : list A) i a e : vec_set v i a <> Throw e.
Proof. unfold vec_set. by destruct (v !! i). Qed.

Section InputSizeInversion.
Context `{Header} `{OpenVINO}.

(** What a returned [changeInputSize] has done, step by step. *)
Lemma changeInputSize_inv this model this1 model1 :
  changeInputSize this model = Ok (this1, model1) ->
  exists input name t H W w0,
    inputs model = [input] /\
    get_any_name input = Ok name /\
    (4 <= length (port_shape input))%nat /\
    t = (if targetSize this =? 0
         then Size.to_int (dim (port_shape input) 2) else targetSize this) /\
    round_up_to_stride t = Ok H /\
    scaled_width t (aspectRatio this) = Ok w0 /\
    round_up_to_stride w0 = Ok W /\
    this1 = set_inputLayerSize (set_targetSize this t)
              (mkSize (Size.to_int (Size.of_int W)) (Size.to_int (Size.of_int H))) /\
    reshape model name
      (<[3%nat := Size.of_int W]> (<[2%nat := Size.of_int H]>
         (<[0%nat := 1]> (port_shape input)))) = Some model1.
Proof.
  unfold changeInputSize. intros Hrun.
  apply bind_ok_inv in Hrun as (input & Hin & Hrun).
  apply bind_ok_inv in Hrun as (name & Hname & Hrun).
  apply bind_ok_inv in Hrun as (this0 & Hthis & Hrun).
  apply bind_ok_inv in Hrun as (Hh & HrunH & Hrun).
  apply bind_ok_inv in Hrun as (w0 & Hw0 & Hrun).
  apply bind_ok_inv in Hrun as (Ww & HrunW & Hrun).
  apply bind_ok_inv in Hrun as (s0 & Hs0 & Hrun).
  apply bind_ok_inv in Hrun as (s2 & Hs2 & Hrun).
  apply bind_ok_inv in Hrun as (s3 & Hs3 & Hrun).
  apply bind_ok_inv in Hrun as (w & Hw & Hrun).
  apply bind_ok_inv in Hrun as (h & Hh' & Hrun).
  apply bind_ok_inv in Hrun as (reshaped & Hreshape & Hrun).
  injection Hrun as <- <-.
  unfold model_input in Hin.
  destruct (inputs model) as [|input' [|]] eqn:Hinputs; try done.
  injection Hin as ->.
  apply vec_set_inv in Hs0 as [-> Hl0], Hs2 as [-> Hl2], Hs3 as [-> Hl3].
  rewrite !length_insert in Hl3.
  apply vec_at_inv in Hw, Hh'.
  rewrite list_lookup_insert_eq in Hw by (rewrite !length_insert; lia).
  rewrite list_lookup_insert_ne, list_lookup_insert_eq in Hh'
    by (rewrite ?length_insert; lia).
  injection Hw as <-. injection Hh' as <-.
  assert (Ht : this0 = set_targetSize this
            (if targetSize this =? 0
             then Size.to_int (dim (port_shape input) 2) else targetSize this)).
  { destruct (targetSize this =? 0).
    - apply bind_ok_inv in Hthis as (d & Hd & Hthis). injection Hthis as <-.
      apply vec_at_inv in Hd. unfold dim. by rewrite Hd.
    - injection Hthis as <-. by destruct this. }
  subst this0. cbn in HrunH, Hw0.
  eexists input, name, _, Hh, Ww, w0.
  split; [done|]. split; [done|]. split; [lia|]. split; [reflexivity|].
  split; [done|]. split; [done|]. split; [done|]. split; [done|].
  unfold lib in Hreshape. by destruct (reshape _ _ _) as [m|]; [injection Hreshape as ->|].
Qed.

(** X3.  Whenever [changeInputSize] returns, with a positive stride, the
    recorded network input is made of multiples of the stride and is not
    smaller than what was asked for, whatever the signs: the height is at
    least the (replaced) target size and the width at least the rounded
    product of target size and aspect ratio. *)
Theorem changeInputSize_covers_target this model this1 model1 :
  0 < stride ->
  changeInputSize this model = Ok (this1, model1) ->
  exists inputWidth,
    scaled_width (targetSize this1) (aspectRatio this) = Ok inputWidth /\
    (exists k, height (inputLayerSize this1) = k * stride) /\
    (exists k, width (inputLayerSize this1) = k * stride) /\
    targetSize this1 <= height (inputLayerSize this1) /\
    inputWidth <= width (inputLayerSize this1).
Proof.
  intros Hs Hrun.
  apply changeInputSize_inv in Hrun
    as (input & name & t & Hh & Ww & w0 & _ & _ & _ & _ & HrunH & Hw0 & HrunW & -> & _).
  apply (round_up_to_stride_inv _ _ Hs) in HrunH as (HmulH & HgeH & _ & HrangeH).
  apply (round_up_to_stride_inv _ _ Hs) in HrunW as (HmulW & HgeW & _ & HrangeW).
  cbn. rewrite !size_int_roundtrip by done. by exists w0.
Qed.

(** What a throwing [changeInputSize] has met: a library call that
    failed, be it [input()], [get_any_name()] or [reshape] (the last only
    once the shape has been indexed up to its fourth dimension). *)
Lemma changeInputSize_throw_inv this model e :
  changeInputSize this model = Throw e ->
  e = LibraryError /\
  ((forall input, inputs model <> [input]) \/
   (exists input, inputs model = [input] /\ port_names input = []) \/
   (exists input name shape,
      inputs model = [input] /\ (4 <= length (port_shape input))%nat /\
      reshape model name shape = None)).
Proof.
  unfold changeInputSize. intros Hrun.
  apply bind_throw_inv in Hrun as [Hin|(input & Hin & Hrun)].
  { unfold model_input in Hin.
    destruct (inputs model) as [|input [|]]; try done;
      injection Hin as <-; (split; [done|]); left; by intros input'. }
  unfold model_input in Hin.
  destruct (inputs model) as [|input' [|]] eqn:Hinputs; try done.
  injection Hin as ->.
  apply bind_throw_inv in Hrun as [Hname|(name & Hname & Hrun)].
  { unfold get_any_name in Hname.
    destruct (port_names input) eqn:Hnames; [|done]. injection Hname as <-.
    split; [done|]. right. left. by exists input. }
  apply bind_throw_inv in Hrun as [Hthis|(this0 & Hthis & Hrun)].
  { destruct (targetSize this =? 0); [|done].
    unfold vec_at in Hthis. by destruct (port_shape input !! 2%nat). }
  apply bind_throw_inv in Hrun as [HH|(Hh & HH & Hrun)];
    [by apply round_up_to_stride_never_throws in HH|].
  apply bind_throw_inv in Hrun as [Hw0|(w0 & Hw0 & Hrun)].
  { unfold scaled_width in Hw0. by destruct (F64.round_to_int _). }
  apply bind_throw_inv in Hrun as [HW|(Ww & HW & Hrun)];
    [by apply round_up_to_stride_never_throws in HW|].
  apply bind_throw_inv in Hrun as [Hs0|(s0 & Hs0 & Hrun)];
    [by apply vec_set_never_throws in Hs0|].
  apply bind_throw_inv in Hrun as [Hs2|(s2 & Hs2 & Hrun)];
    [by apply vec_set_never_throws in Hs2|].
  apply bind_throw_inv in Hrun as [Hs3|(s3 & Hs3 & Hrun)];
    [by apply vec_set_never_throws in Hs3|].
  apply vec_set_inv in Hs0 as [-> Hl0], Hs2 as [-> Hl2], Hs3 as [-> Hl3].
  rewrite !length_insert in Hl3.
  apply bind_throw_inv in Hrun as [Hw|(w & Hw & Hrun)];
    [by apply vec_at_never_throws in Hw|].
  apply bind_throw_inv in Hrun as [Hh'|(h & Hh' & Hrun)];
    [by apply vec_at_never_throws in Hh'|].
  apply bind_throw_inv in Hrun as [Hreshape|(reshaped & _ & Hrun)]; [|done].
  unfold lib in Hreshape. destruct (reshape _ _ _) eqn:Hnone; [done|].
  injection Hreshape as <-. split; [done|]. right. right.
  eexists input, name, _. split; [done|]. split; [lia|exact Hnone].
Qed.

(** X4.  [changeInputSize] indexes the input shape (lines 102 and
    108-109) before [prepareInputsOutputs] checks, at line 58, that it
    has four dimensions: for a model whose single, named input has fewer
    than four dimensions both index the shape out of range, which is
    undefined behaviour of [std::vector::operator[]]. *)
Theorem low_rank_input_is_undefined this model input :
  inputs model = [input] ->
  port_names input <> [] ->
  (length (port_shape input) < 4)%nat ->
  changeInputSize this model = Undefined /\
  prepareInputsOutputs this model = Undefined.
Proof.
  intros Hin Hnamed Hrank.
  assert (Hsize : changeInputSize this model = Undefined).
  { destruct (changeInputSize this model) as [[this1 model1]|e|] eqn:Hrun; [| |done].
    - apply changeInputSize_inv in Hrun
        as (input' & ? & ? & ? & ? & ? & Hin' & _ & Hlen & _).
      rewrite Hin in Hin'. injection Hin' as <-. lia.
    - apply changeInputSize_throw_inv in Hrun
        as (_ & [Hnone|[(input' & Hin' & Hnames)|(input' & ? & ? & Hin' & Hlen & _)]]).
      + by destruct (Hnone input).
      + rewrite Hin in Hin'. injection Hin' as <-. done.
      + rewrite Hin in Hin'. injection Hin' as <-. lia. }
  split; [done|]. unfold prepareInputsOutputs. by rewrite Hsize.
Qed.
End InputSizeInversion.

Section NegotiationEffects.
Context `{Header} `{OpenVINO}.

(** What a returned [prepareInputsOutputs] has done. *)
Lemma prepare_inv this model this' model' :
  prepareInputsOutputs this model = Ok (this', model') ->
  exists this1 model1 input heat paf name heatName pafName,
    changeInputSize this model = Ok (this1, model1) /\
    inputs model1 = [input] /\ outputs model1 = [heat; paf] /\
    get_any_name input = Ok name /\
    get_any_name heat = Ok heatName /\
    get_any_name paf = Ok pafName /\
    ppp_build model1 = Some model' /\
    this' = push_outputsName
              (push_outputsName (push_inputsName this1 name) heatName) pafName.
Proof.
  unfold prepareInputsOutputs. intros Hr.
  apply bind_ok_inv in Hr as ([this1 model1] & Hsize & Hr).
  apply bind_ok_inv in Hr as ([] & Hone & Hr).
  apply throw_if_ok_inv, negb_false_iff, length_eqb_1 in Hone as [input Hin].
  unfold model_input in Hr. rewrite Hin in Hr. cbn in Hr.
  apply bind_ok_inv in Hr as (name & Hname & Hr).
  apply bind_ok_inv in Hr as ([] & _ & Hr).
  apply bind_ok_inv in Hr as ([] & Htwo & Hr).
  apply throw_if_ok_inv, negb_false_iff, length_eqb_2 in Htwo as (heat & paf & Hout).
  rewrite Hout in Hr. cbn in Hr.
  apply bind_ok_inv in Hr as (this2 & Hnames & Hr).
  apply bind_ok_inv in Hnames as (heatName & HheatName & Hnames).
  apply bind_ok_inv in Hnames as (pafName & HpafName & Hnames).
  injection Hnames as <-.
  apply bind_ok_inv in Hr as (built & Hbuild & Hr).
  apply bind_ok_inv in Hr as ([] & _ & Hr).
  apply bind_ok_inv in Hr as ([] & _ & Hr).
  apply bind_ok_inv in Hr as ([] & _ & Hr).
  injection Hr as <- <-.
  exists this1, model1, input, heat, paf, name, heatName, pafName.
  repeat (split; [done|]). split; [|done].
  unfold lib in Hbuild. by destruct (ppp_build model1); [injection Hbuild as ->|].
Qed.

(** X6.  A returned [prepareInputsOutputs] has appended one name to
    [inputsNames] and two to [outputsNames], the name of the heat-map
    output before the name of the PAF output, so that [postprocess] finds
    the heat maps first; the aspect ratio and the confidence threshold of
    the object are as before, and the model it returns is the one the
    pre/post-processing build produced. *)
Theorem prepareInputsOutputs_records_names this model this' model' :
  prepareInputsOutputs this model = Ok (this', model') ->
  exists this1 model1 input heat paf name heatName pafName,
    changeInputSize this model = Ok (this1, model1) /\
    inputs model1 = [input] /\ outputs model1 = [heat; paf] /\
    get_any_name input = Ok name /\
    get_any_name heat = Ok heatName /\
    get_any_name paf = Ok pafName /\
    inputsNames this' = inputsNames this ++ [name] /\
    outputsNames this' = outputsNames this ++ [heatName; pafName] /\
    aspectRatio this' = aspectRatio this /\
    confidenceThreshold this' = confidenceThreshold this /\
    inputLayerSize this' = inputLayerSize this1 /\
    ppp_build model1 = Some model'.
Proof.
  intros Hr.
  apply prepare_inv in Hr
    as (this1 & model1 & input & heat & paf & name & heatName & pafName &
        Hsize & Hin & Hout & Hname & HheatName & HpafName & Hbuild & ->).
  exists this1, model1, input, heat, paf, name, heatName, pafName.
  pose proof Hsize as Hinv.
  apply changeInputSize_inv in Hinv
    as (? & ? & ? & ? & ? & ? & _ & _ & _ & _ & _ & _ & _ & -> & _).
  repeat (split; [done|]). cbn.
  split; [by rewrite <- app_assoc|]. done.
Qed.

(** X7.  The checks on the maps report the first failure in the order
    heat-map shape, PAF shape, agreement of height and width: once the
    input and the number of outputs have passed and the library calls
    have succeeded, [HeatmapShapeExpected] is thrown exactly when the
    first output is not [1 x (K+1) x H x W], [PafShapeExpected] exactly
    when the first output is and the second is not [1 x 2(K+1) x H x W],
    and [MapsMismatch] exactly when both are and they differ in their
    last two dimensions. *)
Theorem map_errors_in_order this model this1 model1 input h0 w0 heat paf built :
  changeInputSize this model = Ok (this1, model1) ->
  inputs model1 = [input] ->
  port_shape input = [1; 3; h0; w0] ->
  outputs model1 = [heat; paf] ->
  named model1 ->
  ppp_build model1 = Some built ->
  let heat_ok :=
    exists h w, port_shape heat = [1; Size.add keypointsNumber 1; h; w] in
  let paf_ok :=
    exists h w, port_shape paf = [1; Size.mul 2 (Size.add keypointsNumber 1); h; w] in
  (prepareInputsOutputs this model = Throw HeatmapShapeExpected <-> ~ heat_ok) /\
  (prepareInputsOutputs this model = Throw PafShapeExpected <-> heat_ok /\ ~ paf_ok) /\
  (prepareInputsOutputs this model = Throw MapsMismatch <->
     heat_ok /\ paf_ok /\ last_two (port_shape heat) <> last_two (port_shape paf)).
Proof.
  intros Hsize Hin Hshape Hout Hnamed Hbuild heat_ok paf_ok.
  unfold named in Hnamed. rewrite Hin, Hout in Hnamed. cbn in Hnamed.
  apply Forall_cons in Hnamed as [Hn0 Hnamed].
  apply Forall_cons in Hnamed as [Hn1 Hnamed].
  apply Forall_cons in Hnamed as [Hn2 _].
  apply get_any_name_ok in Hn0 as [name Hn0], Hn1 as [heatName Hn1],
    Hn2 as [pafName Hn2].
  unfold prepareInputsOutputs, model_input. rewrite Hsize. cbn.
  rewrite Hin, Hout. cbn. rewrite Hn0. cbn. rewrite Hshape. cbn.
  rewrite Hn1. cbn. rewrite Hn2. cbn. rewrite Hbuild. cbn.
  pose proof (not_1xCxHxW_false (port_shape heat) (Size.add keypointsNumber 1)) as Hheat.
  pose proof (not_1xCxHxW_false (port_shape paf)
                (Size.mul 2 (Size.add keypointsNumber 1))) as Hpaf.
  fold heat_ok in Hheat. fold paf_ok in Hpaf.
  destruct (not_1xCxHxW (port_shape heat) _); cbn.
  { assert (~ heat_ok) by (intros Hok; by apply Hheat in Hok).
    split; [tauto|]. split; (split; [done|tauto]). }
  assert (Hh : heat_ok) by tauto.
  destruct (not_1xCxHxW (port_shape paf) _); cbn.
  { assert (~ paf_ok) by (intros Hok; by apply Hpaf in Hok).
    split; [split; [done|tauto]|]. split; [tauto|]. split; [done|tauto]. }
  assert (Hp : paf_ok) by tauto.
  destruct Hh as (h & w & Hhs), Hp as (h' & w' & Hps).
  rewrite Hhs, Hps. unfold dim, last_two. cbn.
  assert (Hheat' : heat_ok) by (by exists h, w).
  assert (Hpaf' : paf_ok) by (by exists h', w').
  destruct (Z.eqb_spec h' h) as [->|Hneh]; cbn.
  - destruct (Z.eqb_spec w' w) as [->|Hnew]; cbn.
    + split; [split; [done|tauto]|]. split; [split; [done|tauto]|].
      split; [done|]. by intros (_ & _ & Hne).
    + split; [split; [done|tauto]|]. split; [split; [done|tauto]|].
      split; [|done]. intros _. split; [done|]. split; [done|]. congruence.
  - split; [split; [done|tauto]|]. split; [split; [done|tauto]|].
    split; [|done]. intros _. split; [done|]. split; [done|]. congruence.
Qed.
End NegotiationEffects.

(* ===================================================================== *)
(** * Further properties of preprocessing and postprocessing *)
(* ===================================================================== *)

Lemma lib_inv {A : Type} (r : option A) a : lib r = Ok a -> r = Some a.
Proof. destruct r; [by intros [= ->]|done]. Qed.

Lemma for_each_Forall2 {A B : Type} (f : A -> result B) l l' :
  for_each f l = Ok l' <-> Forall2 (fun a b => f a = Ok b) l l'.
Proof.
  split.
  - revert l'. induction l as [|a l IH]; intros l' Hrun.
    + injection Hrun as <-. constructor.
    + cbn in Hrun. apply bind_ok_inv in Hrun as (b & Hb & Hrun).
      apply bind_ok_inv in Hrun as (bs & Hbs & Hrun).
      injection Hrun as <-. constructor; [done|by apply IH].
  - induction 1 as [|a b l l' Hab _ IH]; [done|].
    cbn. rewrite Hab. cbn. by rewrite IH.
Qed.

Section Frames.
Context `{Header} `{Decoder} `{OpenVINO} `{Imgproc}.

(** X8.  When [preprocess] returns, the region the picture occupies fits
    the network input; the warning has been logged exactly when at least
    a stride of columns is left unused; the scale factors are the size
    of the frame divided by the size of the region; and the request
    holds the tensor wrapped around the padded image. *)
Theorem preprocess_returns_inv this image request scale request' warned :
  preprocess this image request = Ok (scale, request', warned) ->
  exists paddedImage roi tensor,
    resizeImageExt image (width (inputLayerSize this)) (height (inputLayerSize this))
      = Some (paddedImage, roi) /\
    rect_width roi <= width (inputLayerSize this) /\
    (warned = true <-> rect_width roi + stride <= width (inputLayerSize this)) /\
    wrapMat2Tensor paddedImage = Some tensor /\
    set_input_tensor request tensor = Some request' /\
    scale = mkScaleData (img_cols paddedImage) (img_rows paddedImage)
              (F32.div (F32.of_int (img_cols image)) (F32.of_int (rect_width roi)))
              (F32.div (F32.of_int (img_rows image)) (F32.of_int (rect_height roi))).
Proof.
  unfold preprocess. intros Hrun.
  apply bind_ok_inv in Hrun as ([paddedImage roi] & Hresize & Hrun).
  apply bind_ok_inv in Hrun as ([] & Hfit & Hrun).
  apply bind_ok_inv in Hrun as (slack & Hslack & Hrun).
  apply bind_ok_inv in Hrun as (tensor & Htensor & Hrun).
  apply bind_ok_inv in Hrun as (req & Hreq & Hrun).
  injection Hrun as <- <- <-.
  apply lib_inv in Hresize, Htensor, Hreq.
  apply throw_if_ok_inv, Z.ltb_ge in Hfit.
  apply int_checked_inv in Hslack as [-> _].
  exists paddedImage, roi, tensor.
  split; [done|]. split; [done|]. split; [rewrite Z.leb_le; lia|done].
Qed.

End Frames.

Lemma for_each_ext_in {A B : Type} (f g : A -> result B) l :
  (forall a, a ∈ l -> f a = g a) -> for_each f l = for_each g l.
Proof.
  induction l as [|a l IH]; intros Hext; [done|].
  cbn. rewrite (Hext a) by left. rewrite IH; [done|].
  intros a' Ha'. apply Hext. by right.
Qed.

Lemma for_each_fmap_l {A B C : Type} (f : B -> result C) (g : A -> B) l :
  for_each f (g <$> l) = for_each (fun a => f (g a)) l.
Proof. induction l as [|a l IH]; [done|]. cbn. by rewrite IH. Qed.

(** A loop whose body leaves defined behaviour unless a guard holds. *)
Lemma for_each_guard_ok {A B : Type} (c : A -> bool) (g : A -> result B) l bs :
  for_each (fun a => if c a then g a else Undefined) l = Ok bs <->
  Forall (fun a => c a = true) l /\ for_each g l = Ok bs.
Proof.
  revert bs. induction l as [|a l IH]; intros bs; cbn.
  - split; [by intros ->|by intros [_ ->]].
  - split.
    + intros Hrun. apply bind_ok_inv in Hrun as (b & Hb & Hrun).
      apply bind_ok_inv in Hrun as (bs' & Hbs & Hrun). injection Hrun as <-.
      destruct (c a) eqn:Hc; [|done].
      apply IH in Hbs as [Hall Hbs]. split; [by constructor|].
      by rewrite Hb; cbn; rewrite Hbs.
    + intros [Hall Hrun]. apply Forall_cons in Hall as [Hc Hall]. rewrite Hc.
      apply bind_ok_inv in Hrun as (b & Hb & Hrun).
      apply bind_ok_inv in Hrun as (bs' & Hbs & Hrun). injection Hrun as <-.
      rewrite Hb. cbn.
      assert (Hrest : for_each (fun a => if c a then g a else Undefined) l = Ok bs')
        by by apply IH.
      by rewrite Hrest.
Qed.

Lemma for_each_guard_pure {A B : Type} (c : A -> bool) (g : A -> B) l :
  for_each (fun a => if c a then Ok (g a) else Undefined) l
  = if forallb c l then Ok (g <$> l) else Undefined.
Proof.
  induction l as [|a l IH]; [done|]. cbn. rewrite IH.
  destruct (c a); [|done]. cbn. by destruct (forallb c l).
Qed.

Lemma Forall2_impl_in {A B : Type} (P Q : A -> B -> Prop) l k :
  Forall2 P l k -> (forall a b, a ∈ l -> P a b -> Q a b) -> Forall2 Q l k.
Proof.
  induction 1 as [|a b l k Hab _ IH]; intros Himpl; constructor.
  - apply Himpl; [left|done].
  - apply IH. intros a' b' Ha'. apply Himpl. by right.
Qed.

Lemma plane_take {A : Type} (floats : list A) size i n :
  (S i * size <= n)%nat -> plane size i (take n floats) = plane size i floats.
Proof.
  intros Hi. unfold plane.
  rewrite !take_drop_commute, take_take. do 2 f_equal. lia.
Qed.

(** The planes [0 .. n) of a buffer, one after the other, are its first
    [n] planes' worth of floats. *)
Lemma planes_concat {A : Type} (floats : list A) (size : nat) n :
  concat ((fun i => plane size i floats) <$> seq 0 n) = take (n * size) floats.
Proof.
  induction n as [|n IH]; [by rewrite take_0|].
  rewrite seq_S, fmap_app, concat_app, IH. cbn. rewrite app_nil_r.
  unfold plane. rewrite take_take_drop. f_equal. lia.
Qed.

(** The loops of lines 145-149 and 152-156 over a tensor whose last two
    dimensions [h] and [w] fit an [int]. *)
Section Planes.
Context `{Header} `{Imgproc}.
Variables (shape : Shape) (floats : list F32.t) (h w : Z).
Hypothesis Hrows : shape !! 2%nat = Some h.
Hypothesis Hcols : shape !! 3%nat = Some w.
Hypothesis Hh : 0 <= h <= Int.max_signed.
Hypothesis Hw : 0 <= w <= Int.max_signed.

Local Abbreviation header_at :=
  (fun i : nat => mkHeader h w floats (Z.of_nat i * h * w)).
Local Abbreviation plane_at :=
  (fun i : nat => mkMat h w (plane (Z.to_nat (h * w)) i floats)).

Lemma feature_map_at i :
  Z.of_nat i * h * w < Size.modulus ->
  feature_map shape floats i
  = if Z.of_nat i * h * w <=? Z.of_nat (length floats)
    then Ok (header_at i) else Undefined.
Proof.
  intros Hi. unfold feature_map.
  rewrite (vec_at_ok _ _ _ Hrows), (vec_at_ok _ _ _ Hcols). cbn.
  assert (Hmin : Int.min_signed = -2147483648) by reflexivity.
  unfold Size.to_int. rewrite !int_wrap_id by lia.
  assert (Hoffset : Size.mul (Size.mul (Z.of_nat i) h) w = Z.of_nat i * h * w).
  { unfold Size.mul, Size.wrap. rewrite Z.mul_mod_idemp_l by done.
    apply Z.mod_small. nia. }
  by rewrite Hoffset.
Qed.

Lemma read_header_at i :
  read_header (header_at i)
  = if Z.of_nat (S i) * h * w <=? Z.of_nat (length floats)
    then Ok (plane_at i) else Undefined.
Proof.
  unfold read_header, hdr_total. cbn [hdr_rows hdr_cols hdr_offset hdr_buffer].
  assert (Htotal : (if (0 <? h) && (0 <? w) then h * w else 0) = h * w).
  { destruct (Z.ltb_spec 0 h), (Z.ltb_spec 0 w); cbn; nia. }
  rewrite Htotal.
  replace (Z.of_nat i * h * w + h * w) with (Z.of_nat (S i) * h * w) by lia.
  destruct (_ <=? _); [|done]. unfold plane. do 3 f_equal.
  rewrite <- Z.mul_assoc, Z2Nat.inj_mul, Nat2Z.id by nia. done.
Qed.

Lemma headers_guard n :
  Z.of_nat n * h * w < Size.modulus ->
  for_each (feature_map shape floats) (seq 0 n)
  = for_each (fun i : nat => if Z.of_nat i * h * w <=? Z.of_nat (length floats)
                             then Ok (header_at i) else Undefined) (seq 0 n).
Proof.
  intros Hn. apply for_each_ext_in. intros i Hi.
  apply elem_of_seq in Hi as [_ Hi]. apply feature_map_at. nia.
Qed.

(** All [n] planes lie within the buffer exactly when the last one
    does. *)
Lemma planes_within n :
  Forall (fun i : nat => (Z.of_nat (S i) * h * w <=? Z.of_nat (length floats)) = true)
         (seq 0 n)
  <-> Z.of_nat n * h * w <= Z.of_nat (length floats).
Proof.
  rewrite Forall_forall. split.
  - intros Hall. destruct n as [|n]; [lia|].
    apply Z.leb_le, (Hall n), elem_of_seq. lia.
  - intros Hlen i Hi. apply elem_of_seq in Hi as [_ Hi]. apply Z.leb_le. nia.
Qed.

(** Cutting [n] maps out of the buffer and resizing them returns exactly
    when the [n] planes lie within the buffer and [cv::resize] accepts
    each of them. *)
Lemma planes_resized n maps :
  Z.of_nat n * h * w < Size.modulus ->
  (headers ← for_each (feature_map shape floats) (seq 0 n);
   resizeFeatureMaps headers) = Ok maps
  <-> Z.of_nat n * h * w <= Z.of_nat (length floats) /\
      Forall2 (fun i map => cv_resize (plane_at i) upsampleRatio = Some map)
              (seq 0 n) maps.
Proof.
  intros Hn. rewrite headers_guard, for_each_guard_pure by done.
  assert (Hresize : forall headers,
            headers = header_at <$> seq 0 n ->
            resizeFeatureMaps headers
            = for_each (fun i : nat =>
                          if Z.of_nat (S i) * h * w <=? Z.of_nat (length floats)
                          then lib (cv_resize (plane_at i) upsampleRatio)
                          else Undefined) (seq 0 n)).
  { intros headers ->. unfold resizeFeatureMaps. rewrite for_each_fmap_l.
    apply for_each_ext_in. intros i _. rewrite read_header_at.
    by destruct (_ <=? _). }
  assert (Hlib : forall maps',
            for_each (fun i : nat => lib (cv_resize (plane_at i) upsampleRatio))
                     (seq 0 n) = Ok maps'
            <-> Forall2 (fun i map => cv_resize (plane_at i) upsampleRatio = Some map)
                        (seq 0 n) maps').
  { intros maps'. rewrite for_each_Forall2. split; intros HF;
      (eapply Forall2_impl; [exact HF|]); cbn; intros i map.
    - apply lib_inv.
    - by intros ->. }
  split.
  - intros Hrun. apply bind_ok_inv in Hrun as (headers & Hheaders & Hrun).
    destruct (forallb _ _); [|done]. injection Hheaders as <-.
    rewrite (Hresize _ eq_refl) in Hrun.
    apply for_each_guard_ok in Hrun as [Hwithin Hrun].
    split; [by apply planes_within|by apply Hlib].
  - intros [Hlen Hmaps].
    assert (Hheaders : forallb (fun i : nat =>
                          Z.of_nat i * h * w <=? Z.of_nat (length floats)) (seq 0 n) = true).
    { apply forallb_forall. intros i Hi. apply in_seq in Hi. apply Z.leb_le. nia. }
    rewrite Hheaders. cbn. rewrite (Hresize _ eq_refl).
    apply for_each_guard_ok. split; [by apply planes_within|by apply Hlib].
Qed.

(** Reading the [n] headers one after the other. *)
Lemma planes_read n :
  Z.of_nat n * h * w < Size.modulus ->
  (headers ← for_each (feature_map shape floats) (seq 0 n);
   for_each read_header headers)
  = if Z.of_nat n * h * w <=? Z.of_nat (length floats)
    then Ok (plane_at <$> seq 0 n) else Undefined.
Proof.
  intros Hn. rewrite headers_guard, for_each_guard_pure by done.
  destruct (Z.leb_spec (Z.of_nat n * h * w) (Z.of_nat (length floats))) as [Hlen|Hlen].
  - assert (Hheaders : forallb (fun i : nat =>
                          Z.of_nat i * h * w <=? Z.of_nat (length floats)) (seq 0 n) = true).
    { apply forallb_forall. intros i Hi. apply in_seq in Hi. apply Z.leb_le. nia. }
    rewrite Hheaders. cbn. rewrite for_each_fmap_l.
    rewrite (for_each_ext_in _ _ _ (fun i _ => read_header_at i)).
    rewrite for_each_guard_pure.
    assert (Hplanes : forallb (fun i : nat =>
                         Z.of_nat (S i) * h * w <=? Z.of_nat (length floats)) (seq 0 n) = true).
    { apply forallb_forall. intros i Hi. apply in_seq in Hi. apply Z.leb_le. nia. }
    by rewrite Hplanes.
  - destruct (forallb _ _); [|done]. cbn. rewrite for_each_fmap_l.
    rewrite (for_each_ext_in _ _ _ (fun i _ => read_header_at i)).
    rewrite for_each_guard_pure.
    destruct (forallb _ _) eqn:Hplanes; [|done].
    exfalso. destruct n as [|n]; [lia|].
    assert (Hlast : (Z.of_nat (S n) * h * w <=? Z.of_nat (length floats)) = true).
    { rewrite forallb_forall in Hplanes. apply (Hplanes n), in_seq. lia. }
    apply Z.leb_le in Hlast. lia.
Qed.
End Planes.

Section FeatureMaps.
Context `{Header} `{Imgproc}.

(** X10.  For an object that recorded its output names and an inference
    result that holds both tensors, the heat-map tensor with last two
    dimensions [h] and [w] that fit an [int]: [postprocess] gets its
    feature maps exactly when the heat-map tensor holds at least
    [keypointsNumber] and the PAF tensor at least [channels] planes of
    [h * w] floats, [channels] being the second dimension of the PAF
    tensor, and [cv::resize] accepts every plane.  Heat map [i] is then
    plane [i] of the first [keypointsNumber] planes of the tensor stored
    under the first recorded name, resized: what that tensor holds after
    them (the plane the check of line 85 demands on top) is not read.
    PAF map [i] is plane [i] of the tensor stored under the second name,
    cut with the dimensions of the heat-map tensor (lines 153-154), and
    resized. *)
Theorem featureMaps_reads_planes this infResult heatName pafName heatTensor pafTensor
    h w channels heatMaps pafs :
  outputsNames this !! 0%nat = Some heatName ->
  outputsNames this !! 1%nat = Some pafName ->
  outputsData infResult !! heatName = Some heatTensor ->
  outputsData infResult !! pafName = Some pafTensor ->
  tensor_shape heatTensor !! 2%nat = Some h ->
  tensor_shape heatTensor !! 3%nat = Some w ->
  tensor_shape pafTensor !! 1%nat = Some channels ->
  0 <= h <= Int.max_signed ->
  0 <= w <= Int.max_signed ->
  0 <= keypointsNumber ->
  0 <= channels ->
  keypointsNumber * h * w < Size.modulus ->
  channels * h * w < Size.modulus ->
  let size := Z.to_nat (h * w) in
  let used := take (Z.to_nat keypointsNumber * size) (tensor_data heatTensor) in
  featureMaps this infResult = Ok (heatMaps, pafs) <->
    keypointsNumber * h * w <= Z.of_nat (length (tensor_data heatTensor)) /\
    channels * h * w <= Z.of_nat (length (tensor_data pafTensor)) /\
    Forall2 (fun i heatMap =>
               cv_resize (mkMat h w (plane size i used)) upsampleRatio = Some heatMap)
            (seq 0 (Z.to_nat keypointsNumber)) heatMaps /\
    Forall2 (fun i paf =>
               cv_resize (mkMat h w (plane size i (tensor_data pafTensor))) upsampleRatio
               = Some paf)
            (seq 0 (Z.to_nat channels)) pafs.
Proof.
  intros Hn0 Hn1 Ht0 Ht1 Hrows Hcols Hc Hh Hw HK Hchannels HKend Hcend size used.
  assert (Hused : forall maps,
            Forall2 (fun i heatMap =>
                       cv_resize (mkMat h w (plane size i used)) upsampleRatio = Some heatMap)
                    (seq 0 (Z.to_nat keypointsNumber)) maps
            <-> Forall2 (fun i heatMap =>
                       cv_resize (mkMat h w (plane size i (tensor_data heatTensor)))
                         upsampleRatio = Some heatMap)
                    (seq 0 (Z.to_nat keypointsNumber)) maps).
  { intros maps. split; intros HF;
      (eapply Forall2_impl_in; [exact HF|]); cbn; intros i map Hi;
      apply elem_of_seq in Hi as [_ Hi]; unfold used;
      rewrite plane_take by nia; done. }
  rewrite Hused.
  pose proof (planes_resized (tensor_shape heatTensor) (tensor_data heatTensor) h w
                Hrows Hcols Hh Hw (Z.to_nat keypointsNumber)) as Hheat.
  pose proof (planes_resized (tensor_shape heatTensor) (tensor_data pafTensor) h w
                Hrows Hcols Hh Hw (Z.to_nat channels)) as Hpaf.
  rewrite !Z2Nat.id in Hheat, Hpaf by done.
  unfold featureMaps.
  rewrite (vec_at_ok _ _ _ Hn0), (vec_at_ok _ _ _ Hn1). cbn.
  rewrite Ht0, Ht1. cbn. rewrite (vec_at_ok _ _ _ Hc).
  split.
  - intros Hrun.
    apply bind_ok_inv in Hrun as (headers & Hheaders & Hrun).
    apply bind_ok_inv in Hrun as (heatMaps' & Hresized & Hrun).
    cbn in Hrun.
    apply bind_ok_inv in Hrun as (pafHeaders & HpafHeaders & Hrun).
    apply bind_ok_inv in Hrun as (pafs' & HpafResized & Hrun).
    injection Hrun as <- <-.
    destruct (proj1 (Hheat heatMaps' HKend)) as [Hlen Hmaps];
      [by rewrite Hheaders|].
    destruct (proj1 (Hpaf pafs' Hcend)) as [Hlen' Hmaps'];
      [by rewrite HpafHeaders|].
    done.
  - intros (Hlen & Hlen' & Hmaps & Hmaps').
    pose proof (proj2 (Hheat heatMaps HKend) (conj Hlen Hmaps)) as Hrun.
    pose proof (proj2 (Hpaf pafs Hcend) (conj Hlen' Hmaps')) as Hrun'.
    apply bind_ok_inv in Hrun as (headers & Hheaders & Hresized).
    apply bind_ok_inv in Hrun' as (pafHeaders & HpafHeaders & HpafResized).
    rewrite Hheaders. change (Ok headers ≫= ?k) with (k headers). cbv beta.
    rewrite Hresized. change (Ok heatMaps ≫= ?k) with (k heatMaps). cbv beta.
    change (Ok channels ≫= ?k) with (k channels). cbv beta.
    rewrite HpafHeaders. change (Ok pafHeaders ≫= ?k) with (k pafHeaders). cbv beta.
    by rewrite HpafResized.
Qed.

(** X11.  The maps cut out of a tensor (lines 145-148 and 152-155)
    tile it: for a shape [a x b x h x w] whose [h] and [w] fit an [int]
    and [n] planes whose end offset fits a [size_t], reading the [n]
    headers is defined exactly when the tensor holds [n * h * w] floats.
    It then yields [n] maps of [h] rows and [w] columns whose contents,
    put one after the other, are the first [n * h * w] floats of the
    tensor, each float once; on a shorter tensor it is undefined. *)
Theorem feature_maps_tile (floats : list F32.t) a b h w n :
  0 <= h <= Int.max_signed ->
  0 <= w <= Int.max_signed ->
  Z.of_nat n * h * w < Size.modulus ->
  let views := headers ← for_each (feature_map [a; b; h; w] floats) (seq 0 n);
               for_each read_header headers in
  (Z.of_nat n * h * w <= Z.of_nat (length floats) ->
   exists maps,
     views = Ok maps /\
     length maps = n /\
     Forall (fun m => rows m = h /\ cols m = w) maps /\
     concat (data <$> maps) = take (n * Z.to_nat (h * w)) floats) /\
  (Z.of_nat (length floats) < Z.of_nat n * h * w -> views = Undefined).
Proof.
  intros Hh Hw Hend views. unfold views.
  rewrite (planes_read [a; b; h; w] floats h w eq_refl eq_refl Hh Hw n Hend).
  split; intros Hlen.
  - apply Z.leb_le in Hlen. rewrite Hlen. eexists. split; [done|].
    split; [by rewrite length_fmap, length_seq|]. split.
    + apply Forall_fmap, Forall_forall. by intros i _.
    + rewrite <- list_fmap_compose. apply planes_concat.
  - apply Z.leb_gt in Hlen. by rewrite Hlen.
Qed.
End FeatureMaps.

Section PostprocessErrors.
Context `{Header} `{Decoder} `{Imgproc}.

(** X13.  [postprocess] relies on [prepareInputsOutputs] having
    recorded the two output names: on an object with fewer than two
    recorded names it indexes [outputsNames] out of range (lines 135-136)
    before any call that could throw, so its behaviour is undefined
    whatever the inference result holds. *)
Theorem postprocess_needs_output_names this (s : Schedule) infResult :
  (length (outputsNames this) < 2)%nat ->
  postprocess this s infResult = Undefined.
Proof.
  intros Hlen. unfold postprocess, featureMaps.
  destruct (outputsNames this) as [|name0 [|name1 names]]; cbn in *; [done|done|lia].
Qed.
End PostprocessErrors.

Section Repeated.
Context `{Header} `{OpenVINO}.

(** X5.  Once the target size is not zero the input size no longer
    depends on the model: a second [changeInputSize], on whatever model,
    leaves the object exactly as the first one left it. *)
Theorem changeInputSize_stable this model this1 model1 model' this2 model2 :
  changeInputSize this model = Ok (this1, model1) ->
  targetSize this1 <> 0 ->
  changeInputSize this1 model' = Ok (this2, model2) ->
  this2 = this1.
Proof.
  intros Hfirst Hnz Hsecond.
  apply changeInputSize_inv in Hfirst
    as (input & name & t & Hh & Ww & w0 & _ & _ & _ & _ & HrunH & Hw0 & HrunW & -> & _).
  apply changeInputSize_inv in Hsecond
    as (input' & name' & t' & Hh' & Ww' & w0' & _ & _ & _ & Ht' & HrunH' & Hw0' & HrunW'
        & -> & _).
  cbn in Hnz, Ht', Hw0'.
  destruct (Z.eqb_spec t 0) as [?|_]; [done|]. subst t'.
  rewrite HrunH in HrunH'. injection HrunH' as <-.
  rewrite Hw0 in Hw0'. injection Hw0' as <-.
  rewrite HrunW in HrunW'. by injection HrunW' as <-.
Qed.

(** X12.  The recorded names are appended and never reset: a second
    successful [prepareInputsOutputs] on the same object adds the names
    of the second model behind those of the first, so the first two
    output names, the ones [postprocess] reads, are still those of the
    first model. *)
Theorem prepareInputsOutputs_twice this model this1 model1 model' this2 model2 :
  prepareInputsOutputs this model = Ok (this1, model1) ->
  prepareInputsOutputs this1 model' = Ok (this2, model2) ->
  outputsNames this = [] ->
  exists heatName pafName heatName' pafName',
    outputsNames this1 = [heatName; pafName] /\
    outputsNames this2 = [heatName; pafName; heatName'; pafName'] /\
    length (inputsNames this2) = (length (inputsNames this) + 2)%nat.
Proof.
  intros Hfirst Hsecond Hfresh.
  apply prepare_inv in Hfirst
    as (a1 & m1 & input & heat & paf & name & heatName & pafName &
        Hsize & _ & _ & _ & _ & _ & _ & ->).
  apply prepare_inv in Hsecond
    as (a2 & m2 & input' & heat' & paf' & name' & heatName' & pafName' &
        Hsize' & _ & _ & _ & _ & _ & _ & ->).
  apply changeInputSize_inv in Hsize
    as (? & ? & ? & ? & ? & ? & _ & _ & _ & _ & _ & _ & _ & -> & _).
  apply changeInputSize_inv in Hsize'
    as (? & ? & ? & ? & ? & ? & _ & _ & _ & _ & _ & _ & _ & -> & _).
  exists heatName, pafName, heatName', pafName'. cbn. rewrite Hfresh. cbn.
  split; [done|]. split; [done|]. rewrite !length_app. cbn. lia.
Qed.
End Repeated.

(* ===================================================================== *)
(** * The further properties at work on the concrete configuration *)
(* ===================================================================== *)

Lemma changeInputSize_covers_target_demo :
  exists this1 model1 inputWidth,
    @changeInputSize Demo.header Demo.openvino Demo.this_negative Demo.model
      = Ok (this1, model1) /\
    scaled_width (targetSize this1) (aspectRatio Demo.this_negative) = Ok inputWidth /\
    (exists k, height (inputLayerSize this1) = k * 8) /\
    (exists k, width (inputLayerSize this1) = k * 8) /\
    targetSize this1 <= height (inputLayerSize this1) /\
    inputWidth <= width (inputLayerSize this1).
Proof.
  eexists _, _.
  edestruct (@changeInputSize_covers_target Demo.header Demo.openvino
               Demo.this_negative Demo.model) as (inputWidth & Hrest).
  - reflexivity.
  - vm_compute. reflexivity.
  - exists inputWidth. split; [vm_compute; reflexivity|]. exact Hrest.
Defined.

Lemma low_rank_input_is_undefined_demo :
  @changeInputSize Demo.header Demo.openvino Demo.this Demo.flat_model = Undefined /\
  @prepareInputsOutputs Demo.header Demo.openvino Demo.this Demo.flat_model = Undefined.
Proof.
  apply (@low_rank_input_is_undefined Demo.header Demo.openvino Demo.this
           Demo.flat_model (mkPort ["data"] [3; 256; 456])).
  - reflexivity.
  - discriminate.
  - vm_compute. lia.
Defined.

Lemma changeInputSize_stable_demo :
  exists this1 model1 this2 model2,
    @changeInputSize Demo.header Demo.openvino Demo.this Demo.model = Ok (this1, model1) /\
    @changeInputSize Demo.header Demo.openvino this1 Demo.gray_model = Ok (this2, model2) /\
    this2 = this1.
Proof.
  eexists _, _, _, _. split; [vm_compute; reflexivity|].
  split; [vm_compute; reflexivity|].
  eapply (@changeInputSize_stable Demo.header Demo.openvino Demo.this Demo.model
            _ _ Demo.gray_model).
  - vm_compute. reflexivity.
  - vm_compute. discriminate.
  - vm_compute. reflexivity.
Defined.

Lemma prepareInputsOutputs_records_names_demo :
  exists this' model',
    @prepareInputsOutputs Demo.header Demo.openvino Demo.this Demo.model
      = Ok (this', model') /\
    inputsNames this' = ["data"] /\
    outputsNames this' = ["heatmaps"; "pafs"].
Proof.
  eexists _, _. split; [vm_compute; reflexivity|].
  edestruct (@prepareInputsOutputs_records_names Demo.header Demo.openvino
               Demo.this Demo.model)
    as (this1 & model1 & input & heat & paf & name & heatName & pafName & Hsize & Hin &
        Hout & Hname & HheatName & HpafName & Hinputs & Houtputs & _).
  - vm_compute. reflexivity.
  - split; reflexivity.
Defined.

Lemma map_errors_in_order_demo :
  @prepareInputsOutputs Demo.header Demo.openvino Demo.this Demo.odd_model
  = Throw HeatmapShapeExpected.
Proof.
  edestruct (@map_errors_in_order Demo.header Demo.openvino Demo.this Demo.odd_model)
    as ([_ Hheat] & _).
  - vm_compute. reflexivity.
  - reflexivity.
  - reflexivity.
  - reflexivity.
  - repeat constructor; discriminate.
  - reflexivity.
  - apply Hheat. intros (h & w & Heq). vm_compute in Heq. discriminate Heq.
Defined.

Lemma preprocess_returns_inv_demo :
  exists paddedImage roi,
    @resizeImageExt Demo.imgproc Demo.image 456 256 = Some (paddedImage, roi) /\
    rect_width roi <= 456 /\ rect_width roi + 8 <= 456.
Proof.
  edestruct (@preprocess_returns_inv Demo.header Demo.openvino Demo.imgproc
               Demo.ready Demo.image (mkRequest None))
    as (paddedImage & roi & tensor & Hresize & Hfit & Hwarn & _).
  - vm_compute. reflexivity.
  - exists paddedImage, roi. split; [exact Hresize|]. split; [exact Hfit|].
    by apply Hwarn.
Defined.

(** The two heat maps are the first two planes of the heat-map tensor,
    its third plane left out, and the six PAF maps the planes of the PAF
    tensor. *)
Lemma featureMaps_reads_planes_demo :
  @featureMaps Demo.small_header Demo.imgproc Demo.ready Demo.infResult
  = Ok ([mkMat 1 2 [F32.lit 5 10; F32.lit 0 10]; mkMat 1 2 [F32.lit 0 10; F32.lit 9 10]],
        replicate 6 (mkMat 1 2 (replicate 2 (F32.lit 1 10)))).
Proof.
  eapply (@featureMaps_reads_planes Demo.small_header Demo.imgproc Demo.ready
            Demo.infResult "heatmaps" "pafs" _ _ 1 2 6).
  - reflexivity.
  - reflexivity.
  - vm_compute. reflexivity.
  - vm_compute. reflexivity.
  - reflexivity.
  - reflexivity.
  - reflexivity.
  - vm_compute. split; discriminate.
  - vm_compute. split; discriminate.
  - vm_compute. discriminate.
  - vm_compute. discriminate.
  - vm_compute. reflexivity.
  - vm_compute. reflexivity.
  - split; [vm_compute; discriminate|]. split; [vm_compute; discriminate|].
    split; repeat constructor.
Defined.

(** Three maps of [1 x 2] tile a tensor of six floats; cut out of a
    tensor of five, they are undefined. *)
Lemma feature_maps_tile_demo :
  (exists maps,
     (headers ← for_each (feature_map [1; 3; 1; 2] Demo.planes) (seq 0 3);
      for_each read_header headers) = Ok maps /\
     length maps = 3%nat /\
     Forall (fun m => rows m = 1 /\ cols m = 2) maps /\
     concat (data <$> maps) = Demo.planes) /\
  (headers ← for_each (feature_map [1; 3; 1; 2] (take 5 Demo.planes)) (seq 0 3);
   for_each read_header headers) = Undefined.
Proof.
  split.
  - destruct (feature_maps_tile Demo.planes 1 3 1 2 3) as [Htile _].
    + vm_compute. split; discriminate.
    + vm_compute. split; discriminate.
    + vm_compute. reflexivity.
    + destruct Htile as (maps & Hrun & Hlen & Hdims & Hdata).
      * vm_compute. discriminate.
      * exists maps. split; [exact Hrun|]. split; [exact Hlen|].
        split; [exact Hdims|exact Hdata].
  - destruct (feature_maps_tile (take 5 Demo.planes) 1 3 1 2 3) as [_ Hshort].
    + vm_compute. split; discriminate.
    + vm_compute. split; discriminate.
    + vm_compute. reflexivity.
    + apply Hshort. vm_compute. reflexivity.
Defined.

Lemma prepareInputsOutputs_twice_demo :
  @prepareInputsOutputs Demo.header Demo.openvino Demo.this Demo.model
    = Ok (Demo.ready, Demo.model) /\
  exists this2 model2,
    @prepareInputsOutputs Demo.header Demo.openvino Demo.ready Demo.model
      = Ok (this2, model2) /\
    outputsNames this2 = ["heatmaps"; "pafs"; "heatmaps"; "pafs"].
Proof.
  split; [vm_compute; reflexivity|].
  eexists _, _. split; [vm_compute; reflexivity|].
  edestruct (@prepareInputsOutputs_twice Demo.header Demo.openvino Demo.this Demo.model
               Demo.ready Demo.model Demo.model)
    as (heatName & pafName & heatName' & pafName' & _ & Hnames & _).
  - vm_compute. reflexivity.
  - vm_compute. reflexivity.
  - reflexivity.
  - reflexivity.
Defined.

Lemma postprocess_needs_output_names_demo :
  @postprocess Demo.small_header Demo.decoder Demo.imgproc Demo.unprepared
    (Demo.sequential 2) Demo.infResult = Undefined /\
  @postprocess Demo.small_header Demo.decoder Demo.imgproc Demo.half_prepared
    (Demo.sequential 2) Demo.infResult = Undefined.
Proof.
  split.
  - apply (@postprocess_needs_output_names Demo.small_header Demo.decoder Demo.imgproc).
    vm_compute. lia.
  - apply (@postprocess_needs_output_names Demo.small_header Demo.decoder Demo.imgproc).
    vm_compute. lia.
Defined.
